(** * csvutils.delimited: the quote repair filter and the reader lifecycle

    A shallow embedding of [src/csvutils/delimited.py]: the two [_process]
    hooks ([Reader._process] and [NoMultilineQuotedReader._process]), the
    [str] methods and the [csv] reader/writer they call, and the
    [_open]/[reset] lifecycle of [Reader].

    Python [str] values are lists of code points; a function that can raise
    returns an [outcome]. *)

From Stdlib Require Import List Bool Arith NArith ZArith Lia Ascii.
From Stdlib Require String.
Import ListNotations String.StringSyntax.
Delimit Scope string_scope with string.

Set Implicit Arguments.

(** ** Strings *)

Definition char := N.
Definition str := list char.

Definition chr (a : ascii) : char := N_of_ascii a.
Definition lit (s : String.string) : str :=
  map chr (String.list_ascii_of_string s).

Definition NUL : char := 0%N.
Definition TAB : char := 9%N.
Definition LF : char := 10%N.
Definition CR : char := 13%N.
Definition SP : char := 32%N.
Definition DQUOTE : char := 34%N.
Definition COMMA : char := 44%N.
Definition BACKSLASH : char := 92%N.

(** [s.startswith(sub)] *)
Fixpoint startswith (sub s : str) : bool :=
  match sub, s with
  | [], _ => true
  | _ :: _, [] => false
  | a :: sub', b :: s' => N.eqb a b && startswith sub' s'
  end.

(** The scan behind [s.count(sub)] for a non-empty [sub]: occurrences are
    counted from left to right and do not overlap, so after a match the
    scan resumes [len(sub)] characters further; [skip] is the number of
    characters of the last match still to step over. *)
Fixpoint count_from (sub : str) (skip : nat) (s : str) : nat :=
  match s with
  | [] => 0
  | _ :: t =>
      match skip with
      | S k => count_from sub k t
      | O => if startswith sub s
             then S (count_from sub (length sub - 1) t)
             else count_from sub 0 t
      end
  end.

(** [s.count(sub)]; the empty [sub] occurs between all characters. *)
Definition str_count (s sub : str) : Z :=
  match sub with
  | [] => Z.of_nat (S (length s))
  | _ :: _ => Z.of_nat (count_from sub 0 s)
  end.

(** [sub in s] *)
Fixpoint str_contains (s sub : str) : bool :=
  startswith sub s ||
  match s with
  | [] => false
  | _ :: t => str_contains t sub
  end.

(** [s.replace(old, new)] for one-character [old] and [new]. *)
Definition str_replace_char (old new : char) (s : str) : str :=
  map (fun c => if N.eqb c old then new else c) s.

(** [Py_UNICODE_ISSPACE]: the characters [str.strip()] removes. *)
Definition isspace (c : char) : bool :=
  ((9 <=? c) && (c <=? 13) || (28 <=? c) && (c <=? 32) ||
   (c =? 133) || (c =? 160) || (c =? 5760) ||
   (8192 <=? c) && (c <=? 8202) || (c =? 8232) || (c =? 8233) ||
   (c =? 8239) || (c =? 8287) || (c =? 12288))%N.

Fixpoint lstrip (s : str) : str :=
  match s with
  | [] => []
  | c :: t => if isspace c then lstrip t else s
  end.

Definition rstrip (s : str) : str := rev (lstrip (rev s)).

(** [s.strip()] *)
Definition strip (s : str) : str := rstrip (lstrip s).

(** ** Exceptions *)

Inductive csv_error : Type :=
| FieldLargerThanLimit
| DelimiterExpectedAfterQuote
| NewlineInUnquotedField
| UnexpectedEndOfData
| NeedToEscape
| EmptyRecordMustBeQuoted.

Inductive exn : Type :=
| StopIteration
| CsvError (e : csv_error)
| TypeError
| OSError
| UnicodeDecodeError.

Inductive outcome (A : Type) : Type :=
| Ok (a : A)
| Raise (e : exn).
Arguments Ok {A} a.
Arguments Raise {A} e.

Definition bind {A B : Type} (m : outcome A) (k : A -> outcome B) : outcome B :=
  match m with
  | Ok a => k a
  | Raise e => Raise e
  end.

Notation "x <- m ;; k" := (bind m (fun x => k))
  (at level 61, m at next level, right associativity).

(** ** The csv module

    The reader and the writer of the standard [csv] module, after CPython's
    [Modules/_csv.c], for the dialect options the source sets: [delimiter],
    [quotechar], [quoting] (only [QUOTE_MINIMAL] and [QUOTE_NONE] are ever
    passed), [strict] and [skipinitialspace]. The options it leaves at their defaults are fixed:
    [doublequote] is true, [escapechar] is unset and [lineterminator] is
    CR LF. *)

Inductive Quoting : Type := QUOTE_MINIMAL | QUOTE_NONE.

Record Dialect : Type := {
  d_delimiter : char;
  d_quotechar : option char;
  d_quoting : Quoting;
  d_strict : bool;
  d_skipinitialspace : bool
}.

Definition lineterminator : str := [CR; LF].

(** The module-wide [csv.field_size_limit()]. *)
Definition DEFAULT_FIELD_LIMIT : nat := N.to_nat 131072.

(** The parser states that are reachable without an escape character. *)
Inductive ParserState : Type :=
| START_RECORD
| START_FIELD
| IN_FIELD
| IN_QUOTED_FIELD
| QUOTE_IN_QUOTED_FIELD
| EAT_CRNL.

Definition ParserState_eqb (a b : ParserState) : bool :=
  match a, b with
  | START_RECORD, START_RECORD | START_FIELD, START_FIELD
  | IN_FIELD, IN_FIELD | IN_QUOTED_FIELD, IN_QUOTED_FIELD
  | QUOTE_IN_QUOTED_FIELD, QUOTE_IN_QUOTED_FIELD | EAT_CRNL, EAT_CRNL => true
  | _, _ => false
  end.

(** The parser part of a reader object. [p_field] is the field buffer and
    [p_fields] the fields saved so far, both most recent first. *)
Record Parser : Type := {
  p_state : ParserState;
  p_field : str;
  p_fields : list str
}.

Definition parse_reset : Parser :=
  {| p_state := START_RECORD; p_field := []; p_fields := [] |}.

Definition set_state (st : ParserState) (p : Parser) : Parser :=
  {| p_state := st; p_field := p_field p; p_fields := p_fields p |}.

Definition parse_save_field (p : Parser) : Parser :=
  {| p_state := p_state p; p_field := [];
     p_fields := rev (p_field p) :: p_fields p |}.

Definition parse_add_char (limit : nat) (c : char) (p : Parser) : outcome Parser :=
  if limit <=? length (p_field p)
  then Raise (CsvError FieldLargerThanLimit)
  else Ok {| p_state := p_state p; p_field := c :: p_field p;
             p_fields := p_fields p |}.

Definition is_newline (c : char) : bool := N.eqb c LF || N.eqb c CR.

Definition is_quotechar (d : Dialect) (c : char) : bool :=
  match d_quotechar d, d_quoting d with
  | Some q, QUOTE_MINIMAL => N.eqb c q
  | _, _ => false
  end.

(** [parse_process_char]; the character [None] is the end-of-line marker
    the reader feeds after the last character of every line. *)
Definition parse_process_char (d : Dialect) (limit : nat)
    (p : Parser) (oc : option char) : outcome Parser :=
  let start_field (p : Parser) :=
    match oc with
    | None => Ok (set_state START_RECORD (parse_save_field p))
    | Some c =>
        if is_newline c then Ok (set_state EAT_CRNL (parse_save_field p))
        else if is_quotechar d c then Ok (set_state IN_QUOTED_FIELD p)
        else if N.eqb c SP && d_skipinitialspace d then Ok p
        else if N.eqb c (d_delimiter d) then Ok (parse_save_field p)
        else p' <- parse_add_char limit c p ;; Ok (set_state IN_FIELD p')
    end in
  match p_state p with
  | START_RECORD =>
      match oc with
      | None => Ok p
      | Some c =>
          if is_newline c then Ok (set_state EAT_CRNL p)
          else start_field (set_state START_FIELD p)
      end
  | START_FIELD => start_field p
  | IN_FIELD =>
      match oc with
      | None => Ok (set_state START_RECORD (parse_save_field p))
      | Some c =>
          if is_newline c then Ok (set_state EAT_CRNL (parse_save_field p))
          else if N.eqb c (d_delimiter d)
          then Ok (set_state START_FIELD (parse_save_field p))
          else parse_add_char limit c p
      end
  | IN_QUOTED_FIELD =>
      match oc with
      | None => Ok p
      | Some c =>
          if is_quotechar d c then Ok (set_state QUOTE_IN_QUOTED_FIELD p)
          else parse_add_char limit c p
      end
  | QUOTE_IN_QUOTED_FIELD =>
      match oc with
      | None => Ok (set_state START_RECORD (parse_save_field p))
      | Some c =>
          if is_quotechar d c
          then p' <- parse_add_char limit c p ;; Ok (set_state IN_QUOTED_FIELD p')
          else if N.eqb c (d_delimiter d)
          then Ok (set_state START_FIELD (parse_save_field p))
          else if is_newline c
          then Ok (set_state EAT_CRNL (parse_save_field p))
          else if negb (d_strict d)
          then p' <- parse_add_char limit c p ;; Ok (set_state IN_FIELD p')
          else Raise (CsvError DelimiterExpectedAfterQuote)
      end
  | EAT_CRNL =>
      match oc with
      | None => Ok (set_state START_RECORD p)
      | Some c =>
          if is_newline c then Ok p
          else Raise (CsvError NewlineInUnquotedField)
      end
  end.

(** The characters of one line, in order. *)
Fixpoint parse_chars (d : Dialect) (limit : nat) (p : Parser) (line : str)
    : outcome Parser :=
  match line with
  | [] => Ok p
  | c :: rest =>
      p' <- parse_process_char d limit p (Some c) ;;
      parse_chars d limit p' rest
  end.

(** One turn of the loop of [Reader_iternext]: a line, then the end-of-line
    marker. *)
Definition parse_line (d : Dialect) (limit : nat) (p : Parser) (line : str)
    : outcome Parser :=
  p' <- parse_chars d limit p line ;;
  parse_process_char d limit p' None.

(** The loop of [Reader_iternext] over the lines its input iterator still
    holds: lines are consumed until the parser is back at [START_RECORD];
    when the input ends inside a record the record is returned in lenient
    mode and refused in strict mode. The second component is what is left
    of the input. *)
Fixpoint iternext_loop (d : Dialect) (limit : nat) (p : Parser)
    (input : list str) : outcome (list str) * list str :=
  match input with
  | [] =>
      if negb (length (p_field p) =? 0)
         || ParserState_eqb (p_state p) IN_QUOTED_FIELD
      then if d_strict d then (Raise (CsvError UnexpectedEndOfData), [])
           else (Ok (rev (p_fields (parse_save_field p))), [])
      else (Raise StopIteration, [])
  | line :: rest =>
      match parse_line d limit p line with
      | Raise e => (Raise e, rest)
      | Ok p' =>
          if ParserState_eqb (p_state p') START_RECORD
          then (Ok (rev (p_fields p')), rest)
          else iternext_loop d limit p' rest
      end
  end.

(** [next(csv.reader(input, ...))] *)
Definition Reader_iternext (d : Dialect) (limit : nat) (input : list str)
    : outcome (list str) * list str :=
  iternext_loop d limit parse_reset input.

(** [join_append_data] for one field: the first pass decides whether the
    field is quoted, the second writes it. A character that is the
    delimiter, the quote character or part of the line terminator makes
    the field quoted (under [QUOTE_NONE] it would need the escape
    character, which is unset); a quote character is doubled. *)
Definition is_special (d : Dialect) (c : char) : bool :=
  N.eqb c (d_delimiter d)
  || match d_quotechar d with Some q => N.eqb c q | None => false end
  || existsb (N.eqb c) lineterminator.

Definition copy_field (d : Dialect) (field : str) : str :=
  flat_map (fun c =>
    match d_quotechar d with
    | Some q => if N.eqb c q then [q; c] else [c]
    | None => [c]
    end) field.

Definition quote_opt (d : Dialect) : str :=
  match d_quotechar d with Some q => [q] | None => [] end.

Definition join_append_data (d : Dialect) (quoted : bool) (field : str)
    : outcome str :=
  let special := existsb (is_special d) field in
  match d_quoting d with
  | QUOTE_NONE =>
      if special then Raise (CsvError NeedToEscape)
      else Ok (if quoted then quote_opt d ++ field ++ quote_opt d else field)
  | QUOTE_MINIMAL =>
      if quoted || special
      then Ok (quote_opt d ++ copy_field d field ++ quote_opt d)
      else Ok (copy_field d field)
  end.

(** The fields of a record, each after the first preceded by the
    delimiter. *)
Fixpoint join_fields (d : Dialect) (first : bool) (fields : list str)
    : outcome str :=
  match fields with
  | [] => Ok []
  | f :: rest =>
      s <- join_append_data d false f ;;
      r <- join_fields d false rest ;;
      Ok ((if first then [] else [d_delimiter d]) ++ s ++ r)
  end.

(** [writer.writerow(fields)] into an empty [io.StringIO]: the text
    written. A record of one empty field is written as a quoted empty
    field. *)
Definition writerow (d : Dialect) (fields : list str) : outcome str :=
  rec <- join_fields d true fields ;;
  rec' <- match fields, rec with
          | _ :: _, [] =>
              match d_quoting d with
              | QUOTE_NONE => Raise (CsvError EmptyRecordMustBeQuoted)
              | QUOTE_MINIMAL => join_append_data d true []
              end
          | _, _ => Ok rec
          end ;;
  Ok (rec' ++ lineterminator).

(** The dialect [csv.reader(..., delimiter=, strict=, quotechar=, quoting=,
    skipinitialspace=)] builds: the delimiter must be a one-character
    string, the quote character a one-character string or [None], and
    [None] only when quoting is off; anything else is a [TypeError]. *)
Definition make_dialect (delimiter : str) (strict : bool)
    (quotechar : option str) (quoting : Quoting) (skipinitialspace : bool)
    : outcome Dialect :=
  match delimiter with
  | [dl] =>
      match quotechar, quoting with
      | None, QUOTE_NONE =>
          Ok {| d_delimiter := dl; d_quotechar := None; d_quoting := quoting;
                d_strict := strict; d_skipinitialspace := skipinitialspace |}
      | Some [q], _ =>
          Ok {| d_delimiter := dl; d_quotechar := Some q; d_quoting := quoting;
                d_strict := strict; d_skipinitialspace := skipinitialspace |}
      | _, _ => Raise TypeError
      end
  | _ => Raise TypeError
  end.

(** ** csvutils.delimited *)

Definition DEFAULT_QUOTING : Quoting := QUOTE_MINIMAL.
Definition DEFAULT_SKIPINITIALSPACE : bool := true.

(** Python truth of an optional string: [None] and [''] are false. *)
Definition truthy (s : option str) : bool :=
  match s with
  | None | Some [] => false
  | Some (_ :: _) => true
  end.

(** The errors of reading from a text file: bytes that cannot be decoded
    (the file is opened with [errors='strict'] unless [decoding_errors]
    says otherwise) and a failure of the operating system. *)
Inductive read_error : Type :=
| Undecodable
| Unreadable.

Definition read_exn (e : read_error) : exn :=
  match e with
  | Undecodable => UnicodeDecodeError
  | Unreadable => OSError
  end.

(** What one [next(f)] on a text file gives before the end of the file: a
    line with its terminator, or an error. *)
Inductive read : Type :=
| Line (l : str)
| Failed (e : read_error).

(** An open text file: what the reads give, one after the other, from
    the start of the file, and how many reads were made since the file
    was opened or rewound. *)
Record TextFile : Type := {
  f_lines : list read;
  f_pos : nat
}.

(** The [csv.reader] object [_open] creates over the generator of processed
    lines: [r_alive] is false once that generator has finished, by running
    out of lines or by raising. *)
Record CsvReader : Type := {
  r_dialect : Dialect;
  r_alive : bool;
  r_line_num : nat
}.

(** The attributes of a [Reader] the modelled methods use. *)
Record Reader : Type := {
  filename : str;
  delimiter : str;
  quote_char : option str;
  strict_delimitation : bool;
  number_of_header_lines : Z;
  file : option TextFile;
  reader : option CsvReader;
  _rows_read : option Z
}.

(** [Reader._process] *)
Definition Reader_process (self : Reader) (line : str) : str :=
  str_replace_char NUL SP line.

Section Delimited.

(** The value of [csv.field_size_limit()] while the reader runs. *)
Variable field_size_limit : nat.

(** [NoMultilineQuotedReader._process]. The local [continue] is the code
    from line 231 on, which both branches of the test of line 221 reach
    with their value of [postfix]. *)
Definition NoMultilineQuotedReader_process (self : Reader) (line : str)
    : outcome str :=
  let line := str_replace_char NUL SP line in
  match quote_char self with
  | None => Ok line
  | Some [] => Ok line
  | Some quote =>
      let count := str_count line quote in
      if (count =? 0)%Z then Ok line else
      let delimiter := delimiter self in
      let escape := [BACKSLASH] in
      let continue (postfix : Z) : outcome str :=
        if (postfix =? count)%Z then Ok line else
        let line := strip line in
        d <- make_dialect delimiter (strict_delimitation self)
               (quote_char self)
               (match quote_char self with
                | None => QUOTE_NONE
                | Some _ => DEFAULT_QUOTING
                end)
               DEFAULT_SKIPINITIALSPACE ;;
        parsed_line <- fst (Reader_iternext d field_size_limit [line]) ;;
        writerow d parsed_line in
      if negb (str_contains line escape)
      then continue (str_count line (quote ++ delimiter))
      else
        let escaped := str_count line (escape ++ quote) in
        if (escaped =? count)%Z then Ok line else
        let escaped_postfix := str_count line (escape ++ quote ++ delimiter) in
        continue (str_count line (quote ++ delimiter) - escaped_postfix)%Z
  end.

End Delimited.

(** ** The reader lifecycle

    A method that assigns attributes and may raise returns its outcome
    together with the reader as the call leaves it. *)

Definition set_file (f : option TextFile) (self : Reader) : Reader :=
  {| filename := filename self; delimiter := delimiter self;
     quote_char := quote_char self;
     strict_delimitation := strict_delimitation self;
     number_of_header_lines := number_of_header_lines self;
     file := f; reader := reader self; _rows_read := _rows_read self |}.

Definition set_reader (r : option CsvReader) (self : Reader) : Reader :=
  {| filename := filename self; delimiter := delimiter self;
     quote_char := quote_char self;
     strict_delimitation := strict_delimitation self;
     number_of_header_lines := number_of_header_lines self;
     file := file self; reader := r; _rows_read := _rows_read self |}.

Definition set_rows_read (n : option Z) (self : Reader) : Reader :=
  {| filename := filename self; delimiter := delimiter self;
     quote_char := quote_char self;
     strict_delimitation := strict_delimitation self;
     number_of_header_lines := number_of_header_lines self;
     file := file self; reader := reader self; _rows_read := n |}.

(** [next(f)] on a text file *)
Definition file_next (f : TextFile) : outcome str * TextFile :=
  match nth_error (f_lines f) (f_pos f) with
  | Some (Line l) => (Ok l, {| f_lines := f_lines f; f_pos := S (f_pos f) |})
  | Some (Failed e) =>
      (Raise (read_exn e), {| f_lines := f_lines f; f_pos := S (f_pos f) |})
  | None => (Raise StopIteration, f)
  end.

(** [f.seek(0)] *)
Definition seek0 (f : TextFile) : TextFile :=
  {| f_lines := f_lines f; f_pos := 0 |}.

(** [for index in range(n): next(self.file)] *)
Fixpoint skip_lines (n : nat) (self : Reader) : outcome unit * Reader :=
  match n with
  | O => (Ok tt, self)
  | S k =>
      match file self with
      | None => (Raise TypeError, self)
      | Some f =>
          match file_next f with
          | (Ok _, f') => skip_lines k (set_file (Some f') self)
          | (Raise e, f') => (Raise e, set_file (Some f') self)
          end
      end
  end.

Section Lifecycle.

(** The file system: what reading the file a name opens gives, or [None]
    when [open] fails. *)
Variable fs : str -> option (list read).

(** [Reader._open] *)
Definition _open (self : Reader) : outcome unit * Reader :=
  match fs (filename self) with
  | None => (Raise OSError, self)
  | Some lines =>
      let self := set_file (Some {| f_lines := lines; f_pos := 0 |}) self in
      match make_dialect (delimiter self) (strict_delimitation self)
              (quote_char self)
              (match quote_char self with
               | None => QUOTE_NONE
               | Some _ => DEFAULT_QUOTING
               end)
              DEFAULT_SKIPINITIALSPACE with
      | Raise e => (Raise e, self)
      | Ok d =>
          let self :=
            set_reader (Some {| r_dialect := d; r_alive := true;
                                r_line_num := 0 |}) self in
          let self := set_rows_read (Some 0%Z) self in
          skip_lines (Z.to_nat (number_of_header_lines self)) self
      end
  end.

(** [Reader.reset] *)
Definition reset (self : Reader) : outcome unit * Reader :=
  match file self with
  | None => _open self
  | Some f =>
      let self := set_file (Some (seek0 f)) self in
      let self := set_rows_read (Some 0%Z) self in
      skip_lines (Z.to_nat (number_of_header_lines self)) self
  end.

End Lifecycle.

(** ** The paths through [NoMultilineQuotedReader._process]

    The parts of the method under names of their own, for the statements
    below; [process_paths] shows that the method is made of them. *)

(** Lines 221-234: true when every quote character counts as safe, so that
    the line is returned as it is. *)
Definition all_quotes_safe (quote delimiter line : str) : bool :=
  let count := str_count line quote in
  let escape := [BACKSLASH] in
  if negb (str_contains line escape)
  then (str_count line (quote ++ delimiter) =? count)%Z
  else if (str_count line (escape ++ quote) =? count)%Z then true
  else (str_count line (quote ++ delimiter)
        - str_count line (escape ++ quote ++ delimiter) =? count)%Z.

(** The line reaches line 241: the quote character is set, occurs in the
    line, and not every occurrence counts as safe. *)
Definition takes_repair_path (self : Reader) (line : str) : bool :=
  let line := str_replace_char NUL SP line in
  match quote_char self with
  | None | Some [] => false
  | Some quote =>
      negb (str_count line quote =? 0)%Z
      && negb (all_quotes_safe quote (delimiter self) line)
  end.

(** The dialect of the reader of line 242. *)
Definition repair_dialect (self : Reader) : outcome Dialect :=
  make_dialect (delimiter self) (strict_delimitation self) (quote_char self)
    (match quote_char self with
     | None => QUOTE_NONE
     | Some _ => DEFAULT_QUOTING
     end)
    DEFAULT_SKIPINITIALSPACE.

(** Line 247: the fields of the stripped line. *)
Definition parse_single_line (limit : nat) (d : Dialect) (line : str)
    : outcome (list str) :=
  fst (Reader_iternext d limit [strip line]).

(** Splitting one line of text with the field splitter. *)
Definition split_line (limit : nat) (d : Dialect) (line : str)
    : outcome (list str) :=
  fst (Reader_iternext d limit [line]).


(** The postfix count of the specification: the pairs of quote character
    and delimiter, less the escaped ones when an escape marker occurs. *)
Definition adjusted_postfix (quote delimiter line : str) : Z :=
  if str_contains line ([BACKSLASH] ++ quote)
  then (str_count line (quote ++ delimiter)
        - str_count line ([BACKSLASH] ++ quote ++ delimiter))%Z
  else str_count line (quote ++ delimiter).

(** The canonical line of the specification: a field is quoted when it
    holds the delimiter, the quote character or a character of the line
    terminator, quote characters inside it are doubled, the fields are
    joined by the delimiter and the line terminator follows. The writer
    also quotes the only field of a record when it is empty. *)
Definition needs_quoting (dl q : char) (f : str) : bool :=
  existsb (fun c => N.eqb c dl || N.eqb c q || N.eqb c CR || N.eqb c LF) f.

Definition double_quotes (q : char) (f : str) : str :=
  flat_map (fun c => if N.eqb c q then [q; q] else [c]) f.

Definition canonical_field (dl q : char) (f : str) : str :=
  if needs_quoting dl q f then [q] ++ double_quotes q f ++ [q] else f.

Fixpoint join (dl : char) (parts : list str) : str :=
  match parts with
  | [] => []
  | [r] => r
  | r :: rest => r ++ dl :: join dl rest
  end.

Definition canonical_line (dl q : char) (fields : list str) : str :=
  match fields with
  | [[]] => [q; q]
  | _ => join dl (map (canonical_field dl q) fields)
  end ++ [CR; LF].

(** The safe lines of the specification: every occurrence of the quote
    character is preceded by a backslash or immediately followed by the
    delimiter. [prev] is the character before the rest [s]. *)
Fixpoint quotes_safe_from (q dl : char) (prev : option char) (s : str) : bool :=
  match s with
  | [] => true
  | c :: t =>
      (negb (N.eqb c q)
       || match prev with Some b => N.eqb b BACKSLASH | None => false end
       || match t with n :: _ => N.eqb n dl | [] => false end)
      && quotes_safe_from q dl (Some c) t
  end.

Definition every_quote_safe (q dl : char) (line : str) : bool :=
  quotes_safe_from q dl None line.

(** A reader that has not been opened. *)
Definition new_reader (name delim : str) (quote : option str)
    (strict : bool) (header_lines : Z) : Reader :=
  {| filename := name; delimiter := delim; quote_char := quote;
     strict_delimitation := strict; number_of_header_lines := header_lines;
     file := None; reader := None; _rows_read := None |}.

(** The reader of the scenarios of the specification: comma, double
    quote, lenient. *)
Definition comma_reader : Reader :=
  new_reader (lit "data.csv"%string) [COMMA] (Some [DQUOTE]) false 0.

(** ** Invariants of the parser

    The predicates the proofs about the parser carry from character to
    character. *)

(** The field buffer and the saved fields satisfy [R]. *)
Definition contents_ok (R : str -> Prop) (p : Parser) : Prop :=
  R (p_field p) /\ Forall R (p_fields p).

(** After a first character that is not a line break the parser has left
    [START_RECORD], and it only skips line breaks once a field was
    saved. *)
Definition record_started (p : Parser) : Prop :=
  match p_state p with
  | START_RECORD => False
  | EAT_CRNL => p_fields p <> []
  | _ => True
  end.

(** Without the delimiter there is no second field. *)
Definition at_most_one (p : Parser) : Prop :=
  match p_state p with
  | EAT_CRNL => length (p_fields p) <= 1
  | _ => p_fields p = []
  end.

(** A character that does not force quoting. *)
Definition plain (dl q : char) (c : char) : Prop :=
  (N.eqb c dl || N.eqb c q || N.eqb c CR || N.eqb c LF) = false.

(** The parser after the text of a field. *)
Definition after_field (p : Parser) : Prop :=
  (p_state p = START_FIELD /\ p_field p = [])
  \/ p_state p = IN_FIELD \/ p_state p = QUOTE_IN_QUOTED_FIELD.

(** A text that does not start with a line break. *)
Definition starts_inside (s : str) : Prop :=
  match s with
  | c :: _ => is_newline c = false
  | [] => False
  end.

(** Unfolds one step of the parser and splits on every test it makes. *)
Ltac parser_step H :=
  unfold parse_process_char, parse_add_char in H; simpl in H;
  repeat match type of H with
         | context [if ?b then _ else _] => destruct b eqn:?; simpl in H
         | context [match ?o with Some _ => _ | None => _ end] =>
             destruct o eqn:?; simpl in H
         end;
  try discriminate H.

(** ** Quotes by position

    The predicates and the counts by position in which the decision of
    lines 221-234 is described below. *)

(** The number of positions of [s] at which [sub] starts; unlike those
    [str.count] counts, these occurrences may overlap. *)
Fixpoint occurrences (sub s : str) : nat :=
  match s with
  | [] => 0
  | _ :: t => (if startswith sub s then 1 else 0) + occurrences sub t
  end.

(** Every quote character of [s] comes right after a backslash; [prev] is
    the character before [s]. *)
Fixpoint escaped_from (q : char) (prev : option char) (s : str) : bool :=
  match s with
  | [] => true
  | c :: t =>
      (negb (N.eqb c q)
       || match prev with Some b => N.eqb b BACKSLASH | None => false end)
      && escaped_from q (Some c) t
  end.

Definition all_quotes_escaped (q : char) (s : str) : bool :=
  escaped_from q None s.

(** Every quote character of [s] comes right before the delimiter. *)
Fixpoint all_quotes_before_delimiter (q dl : char) (s : str) : bool :=
  match s with
  | [] => true
  | c :: t =>
      (negb (N.eqb c q)
       || match t with n :: _ => N.eqb n dl | [] => false end)
      && all_quotes_before_delimiter q dl t
  end.

(** The first character of [s] is a quote character that the delimiter
    does not follow. *)
Definition head_quote_open (q dl : char) (s : str) : nat :=
  match s with
  | c :: t =>
      if N.eqb c q && negb (match t with n :: _ => N.eqb n dl | [] => false end)
      then 1 else 0
  | [] => 0
  end.

(** ** Fields that survive a round trip *)

(** The field is written in quotes, or does not start with a space (which
    a reader that skips initial spaces would drop). *)
Definition keeps_its_start (dl q : char) (f : str) : bool :=
  needs_quoting dl q f
  || match f with c :: _ => negb (N.eqb c SP) | [] => true end.

(** The parser after the text of the field [f], with [fs] saved before. *)
Definition field_done (f : str) (fs : list str) (p : Parser) : Prop :=
  p_fields p = fs
  /\ ((p_state p = START_FIELD /\ f = [] /\ p_field p = [])
      \/ (p_state p = IN_FIELD /\ p_field p = rev f)
      \/ (p_state p = QUOTE_IN_QUOTED_FIELD /\ p_field p = rev f)).

Ltac split_tests :=
  repeat match goal with
         | |- context [N.eqb ?a ?b] => destruct (N.eqb_spec a b); subst
         | H : context [N.eqb ?a ?b] |- _ => destruct (N.eqb_spec a b); subst
         end;
  cbn [andb orb negb Nat.add] in *.

(** The errors the reader can raise on one line: the two of strict mode
    only under [strict]. *)
Definition reader_error (strict : bool) (e : exn) : Prop :=
  e = CsvError FieldLargerThanLimit
  \/ e = CsvError NewlineInUnquotedField
  \/ (strict = true
      /\ (e = CsvError DelimiterExpectedAfterQuote
          \/ e = CsvError UnexpectedEndOfData)).

(** ** The rest of the module: conversion and iteration

    [_convert], [Reader.__init__], [__iter__], [__next__], [__exit__] and
    [_close]. A [Reader] object is the record [Reader] above together with
    the attributes only these methods use; the [encoding] and
    [decoding_errors] attributes, which only reach [open], are left out:
    what they decide, which reads of the file fail, comes with the file
    system. *)

(** The exceptions these methods meet besides those of [exn]. *)
Inductive raised : Type :=
| Builtin (e : exn)
| ValueError
| AttributeError
| RuntimeError.

Inductive result (A : Type) : Type :=
| Return (a : A)
| Throw (e : raised).
Arguments Return {A} a.
Arguments Throw {A} e.

Definition lift {A : Type} (o : outcome A) : result A :=
  match o with
  | Ok a => Return a
  | Raise e => Throw (Builtin e)
  end.

Definition rbind {A B : Type} (m : result A) (k : A -> result B) : result B :=
  match m with
  | Return a => k a
  | Throw e => Throw e
  end.

(** [a == b] on strings *)
Fixpoint str_eqb (a b : str) : bool :=
  match a, b with
  | [], [] => true
  | x :: a', y :: b' => N.eqb x y && str_eqb a' b'
  | _, _ => false
  end.

(** [s.lstrip(ch)] and [s.strip(ch)] for a single character [ch] *)
Fixpoint lstrip_char (ch : char) (s : str) : str :=
  match s with
  | [] => []
  | c :: t => if N.eqb c ch then lstrip_char ch t else s
  end.

Definition strip_char (ch : char) (s : str) : str :=
  rev (lstrip_char ch (rev (lstrip_char ch s))).

(** The built-in conversions [_convert] calls: [int] and [float] on a
    string and [datetime.datetime.strptime], each giving [None] where
    Python raises [ValueError], and [datetime.datetime.date]. *)
Record Builtins : Type := {
  py_float : Type;
  py_date : Type;
  py_datetime : Type;
  int_of_str : str -> option Z;
  float_of_str : str -> option py_float;
  strptime : str -> str -> option py_datetime;
  date_of_datetime : py_datetime -> py_date
}.

(** The values of a converted row. *)
Inductive value (B : Builtins) : Type :=
| VNone
| VStr (s : str)
| VInt (n : Z)
| VFloat (x : py_float B)
| VDate (x : py_date B)
| VDateTime (x : py_datetime B).
Arguments VNone {B}.
Arguments VStr {B} s.
Arguments VInt {B} n.
Arguments VFloat {B} x.
Arguments VDate {B} x.
Arguments VDateTime {B} x.

(** [_convert]: [strptime] with the format [None] raises [TypeError], which
    the handler, for [ValueError] only, lets through. *)
Definition _convert (B : Builtins) (text new_type : str)
    (new_format : option str) (raise_on_error : bool) : result (value B) :=
  let body : result (value B) :=
    let stripped_text := strip_char SP text in
    if str_eqb stripped_text [] then Return VNone
    else if str_eqb new_type (lit "string"%string)
    then Return (VStr stripped_text)
    else if str_eqb new_type (lit "integer"%string)
    then match int_of_str B stripped_text with
         | Some n => Return (VInt n)
         | None => Throw ValueError
         end
    else if str_eqb new_type (lit "float"%string)
    then match float_of_str B stripped_text with
         | Some x => Return (VFloat x)
         | None => Throw ValueError
         end
    else if str_eqb new_type (lit "date"%string)
    then match new_format with
         | None => Throw (Builtin TypeError)
         | Some fmt =>
             match strptime B stripped_text fmt with
             | Some t => Return (VDate (date_of_datetime B t))
             | None => Throw ValueError
             end
         end
    else if str_eqb new_type (lit "datetime"%string)
    then match new_format with
         | None => Throw (Builtin TypeError)
         | Some fmt =>
             match strptime B stripped_text fmt with
             | Some t => Return (VDateTime t)
             | None => Throw ValueError
             end
         end
    else Return (VStr stripped_text) in
  match body with
  | Throw ValueError => if raise_on_error then Throw ValueError else Return VNone
  | r => r
  end.

Definition DEFAULT_FIELD_DELIMITER : str := [TAB].
Definition DEFAULT_STRICTDELIMITATION : bool := false.
Definition DEFAULT_QUOTE_CHAR : str := [DQUOTE].
Definition DEFAULT_DATE_FORMAT : str := lit "%Y-%m-%d"%string.
Definition DEFAULT_DATETIME_FORMAT : str := lit "%Y-%m-%d %H:%M:%S.%f"%string.

(** The description of a field: a dict from keys to strings. *)
Definition dict : Type := str -> option str.

(** [d.get(key, default)] *)
Definition dict_get (d : dict) (key default : str) : str :=
  match d key with
  | Some v => v
  | None => default
  end.

(** [d.get(key) == s] *)
Definition dict_has (d : dict) (key s : str) : bool :=
  match d key with
  | Some v => str_eqb v s
  | None => false
  end.

Record ReaderObject : Type := {
  core : Reader;
  fields : list dict;
  convert_values : bool;
  raise_convert_errors : bool;
  rpad : bool;
  _len_fields : nat;
  _field_types : list str;
  _field_formats : list (option str);
  _max_index : Z
}.

Definition set_core (c : Reader) (self : ReaderObject) : ReaderObject :=
  {| core := c; fields := fields self;
     convert_values := convert_values self;
     raise_convert_errors := raise_convert_errors self; rpad := rpad self;
     _len_fields := _len_fields self; _field_types := _field_types self;
     _field_formats := _field_formats self; _max_index := _max_index self |}.

(** [Reader.__init__]; the loop of lines 104-112 is the fold. *)
Definition __init__ (filename : str) (fields : list dict) (delimiter : str)
    (quote_char : option str) (strict_delimitation : bool)
    (number_of_header_lines : Z)
    (convert_values raise_convert_errors rpad : bool) : ReaderObject :=
  let '(types, formats, max_index) :=
    fold_left
      (fun acc field =>
         let '(types, formats, max_index) := acc in
         (types ++ [dict_get field (lit "datatype"%string) (lit "string"%string)],
          formats ++
            [if dict_has field (lit "datatype"%string) (lit "date"%string)
             then Some (dict_get field (lit "date_format"%string)
                          DEFAULT_DATE_FORMAT)
             else if dict_has field (lit "datatype"%string)
                       (lit "datetime"%string)
             then Some (dict_get field (lit "datetime_format"%string)
                          DEFAULT_DATETIME_FORMAT)
             else None],
          (max_index + 1)%Z))
      fields ([], [], (-1)%Z) in
  {| core := {| filename := filename; delimiter := delimiter;
                quote_char := quote_char;
                strict_delimitation := strict_delimitation;
                number_of_header_lines := number_of_header_lines;
                file := None; reader := None; _rows_read := None |};
     fields := fields;
     convert_values := convert_values;
     raise_convert_errors := raise_convert_errors;
     rpad := rpad;
     _len_fields := length fields;
     _field_types := types;
     _field_formats := formats;
     _max_index := max_index |}.

(** What [Reader_iternext] does when its input iterator has nothing
    left. *)
Definition end_of_input (d : Dialect) (p : Parser) : result (list str) :=
  if negb (length (p_field p) =? 0)
     || ParserState_eqb (p_state p) IN_QUOTED_FIELD
  then if d_strict d then Throw (Builtin (CsvError UnexpectedEndOfData))
       else Return (rev (p_fields (parse_save_field p)))
  else Throw (Builtin StopIteration).

(** [next(self.reader)]: the loop of [Reader_iternext] over the generator
    [(_process(line) for line in self.file)]. [rest] is what the file
    still holds, [pos] the position of the file and [line_num] the line
    count of the csv reader; the result comes with the position, the line
    count and whether the generator is still alive. The generator ends
    when the file is exhausted, when reading the file raises and when
    [_process] raises; the error of a read reaches the caller as it is, a
    [StopIteration] raised by [_process] as a [RuntimeError]. *)
Fixpoint reader_loop (process : str -> outcome str) (d : Dialect)
    (limit : nat) (p : Parser) (rest : list read) (pos line_num : nat)
    : result (list str) * (nat * nat * bool) :=
  match rest with
  | [] => (end_of_input d p, (pos, line_num, false))
  | Failed e :: _ =>
      (Throw (Builtin (read_exn e)), (S pos, line_num, false))
  | Line line :: rest' =>
      match process line with
      | Raise StopIteration => (Throw RuntimeError, (S pos, line_num, false))
      | Raise e => (Throw (Builtin e), (S pos, line_num, false))
      | Ok line' =>
          match parse_line d limit p line' with
          | Raise e => (Throw (Builtin e), (S pos, S line_num, true))
          | Ok p' =>
              if ParserState_eqb (p_state p') START_RECORD
              then (Return (rev (p_fields p')), (S pos, S line_num, true))
              else reader_loop process d limit p' rest' (S pos) (S line_num)
          end
      end
  end.

(** The list comprehension of lines 153-154: [_convert] on every triple of
    [zip(row, self._field_types, self._field_formats)], in order. *)
Fixpoint convert_zip (B : Builtins) (raise_on_error : bool) (row types : list str)
    (formats : list (option str)) : result (list (value B)) :=
  match row, types, formats with
  | text :: row', new_type :: types', new_format :: formats' =>
      rbind (_convert B text new_type new_format raise_on_error) (fun v =>
      rbind (convert_zip B raise_on_error row' types' formats') (fun vs =>
      Return (v :: vs)))
  | _, _, _ => Return []
  end.

(** The list comprehension of lines 160-161: [_convert] to a string on
    every field of [row], in order. *)
Fixpoint convert_strings (B : Builtins) (raise_on_error : bool) (row : list str)
    : result (list (value B)) :=
  match row with
  | [] => Return []
  | f :: row' =>
      rbind (_convert B f (lit "string"%string) None raise_on_error) (fun v =>
      rbind (convert_strings B raise_on_error row') (fun vs =>
      Return (v :: vs)))
  end.

(** Lines 149-167 of [__next__]: the line made of the row the csv reader
    returned. *)
Definition line_of_row (B : Builtins) (self : ReaderObject) (row : list str)
    : result (list (value B)) :=
  if convert_values self then
    if length row <=? _len_fields self then
      rbind (convert_zip B (raise_convert_errors self) row
               (_field_types self) (_field_formats self)) (fun line =>
      Return (if rpad self
              then line ++ repeat VNone (_len_fields self - length line)
              else line))
    else
      rbind (convert_zip B (raise_convert_errors self) row
               (_field_types self) (_field_formats self)) (fun line =>
      rbind (convert_strings B (raise_convert_errors self)
               (skipn (_len_fields self) row)) (fun more =>
      Return (line ++ more)))
  else
    let line := map VStr row in
    Return (if rpad self && (length line <? _len_fields self)
            then line ++ repeat (VStr []) (_len_fields self - length line)
            else line).

Section Iteration.

Variable fs : str -> option (list read).

(** The value of [csv.field_size_limit()]. *)
Variable field_size_limit : nat.

(** The [_process] method of the class of the object. *)
Variable process : Reader -> str -> outcome str.

(** [if self.file is None: self._open()] *)
Definition open_if_closed (self : ReaderObject) : result unit * ReaderObject :=
  match file (core self) with
  | None =>
      let r := _open fs (core self) in
      (lift (fst r), set_core (snd r) self)
  | Some _ => (Return tt, self)
  end.

(** [Reader.__iter__] (the object returned is [self]) *)
Definition __iter__ (self : ReaderObject) : result unit * ReaderObject :=
  open_if_closed self.

(** [Reader.__next__] *)
Definition __next__ (B : Builtins) (self : ReaderObject)
    : result (list (value B)) * ReaderObject :=
  match open_if_closed self with
  | (Throw e, self) => (Throw e, self)
  | (Return _, self) =>
      match reader (core self), file (core self) with
      | None, _ => (Throw (Builtin TypeError), self)
      | Some r, None => (Throw ValueError, self)
      | Some r, Some f =>
          let rest := if r_alive r then skipn (f_pos f) (f_lines f) else [] in
          let '(row, (pos, line_num, alive)) :=
            reader_loop (process (core self)) (r_dialect r) field_size_limit
              parse_reset rest (f_pos f) (r_line_num r) in
          let self :=
            set_core
              (set_reader (Some {| r_dialect := r_dialect r; r_alive := alive;
                                   r_line_num := line_num |})
                 (set_file (Some {| f_lines := f_lines f; f_pos := pos |})
                    (core self)))
              self in
          match rbind row (line_of_row B self) with
          | Throw e => (Throw e, self)
          | Return line =>
              match _rows_read (core self) with
              | None => (Throw (Builtin TypeError), self)
              | Some n =>
                  (Return line,
                   set_core (set_rows_read (Some (n + 1)%Z) (core self)) self)
              end
          end
      end
  end.

(** [Reader.reset] on the whole object *)
Definition reset_object (self : ReaderObject) : result unit * ReaderObject :=
  let r := reset fs (core self) in
  (lift (fst r), set_core (snd r) self).

End Iteration.

(** [Reader._close] *)
Definition _close (self : ReaderObject) : result unit * ReaderObject :=
  let self := set_core (set_reader None (core self)) self in
  match file (core self) with
  | None => (Throw AttributeError, self)
  | Some _ => (Return tt, set_core (set_file None (core self)) self)
  end.

(** [Reader.__exit__] *)
Definition __exit__ (self : ReaderObject) : result unit * ReaderObject :=
  match file (core self) with
  | Some _ => _close self
  | None => (Return tt, self)
  end.

(** [Reader.rows_read] *)
Definition rows_read (self : ReaderObject) : option Z := _rows_read (core self).

(** The two classes' [_process]. *)
Definition Reader_hook (self : Reader) (line : str) : outcome str :=
  Ok (Reader_process self line).

Definition NoMultilineQuotedReader_hook (limit : nat) (self : Reader)
    (line : str) : outcome str :=
  NoMultilineQuotedReader_process limit self line.

(** An instance of the built-in conversions for examples: [int] reads
    decimal digits only, [float] and [strptime] refuse every string. *)
Definition digits_only (s : str) : option Z :=
  match s with
  | [] => None
  | _ :: _ =>
      fold_left
        (fun acc c =>
           match acc with
           | Some n =>
               if (48 <=? c)%N && (c <=? 57)%N
               then Some (10 * n + Z.of_N (c - 48))%Z
               else None
           | None => None
           end)
        s (Some 0%Z)
  end.

Definition sample_builtins : Builtins :=
  {| py_float := unit; py_date := unit; py_datetime := unit;
     int_of_str := digits_only;
     float_of_str := fun _ => None;
     strptime := fun _ _ => None;
     date_of_datetime := fun t => t |}.

(** The descriptions of a string field, an integer field and a date
    field. *)
Definition sample_field (datatype : str) : dict :=
  fun key => if str_eqb key (lit "datatype"%string) then Some datatype else None.

Definition sample_fields : list dict :=
  [sample_field (lit "string"%string); sample_field (lit "integer"%string);
   sample_field (lit "date"%string)].

(** The reader is open and the generator behind its csv reader has
    finished. *)
Definition exhausted (self : ReaderObject) : Prop :=
  (exists f, file (core self) = Some f)
  /\ exists r, reader (core self) = Some r /\ r_alive r = false.

(** The reader after a series of calls: [true] stands for [reset()],
    [false] for [__next__()]; exceptions are caught by the caller. *)
Fixpoint after_calls (fs : str -> option (list read)) (limit : nat)
    (process : Reader -> str -> outcome str) (B : Builtins)
    (calls : list bool) (self : ReaderObject) : ReaderObject :=
  match calls with
  | [] => self
  | true :: calls' =>
      after_calls fs limit process B calls' (snd (reset_object fs self))
  | false :: calls' =>
      after_calls fs limit process B calls'
        (snd (__next__ fs limit process B self))
  end.

(** A file of a header line and two records, and a reader of it with one
    header line, for examples. *)
Definition sample_lines : list str :=
  [lit "name,size,day"%string ++ [LF];
   lit "a,1"%string ++ [LF];
   lit "b,2,,x"%string ++ [LF]].

Definition sample_fs : str -> option (list read) :=
  fun _ => Some (map Line sample_lines).

Definition sample_reader (convert pad : bool) : ReaderObject :=
  __init__ (lit "data.csv"%string) sample_fields [COMMA] (Some [DQUOTE])
    false 1 convert false pad.

(** The read gives a line. *)
Definition is_line (r : read) : bool :=
  match r with
  | Line _ => true
  | Failed _ => false
  end.



(** ** The ends of a line *)

(** The first character of [s] is one that [strip] removes. *)
Definition starts_with_space (s : str) : bool :=
  match s with
  | c :: _ => isspace c
  | [] => false
  end.

(** No character that [strip] removes at either end of [s]. *)
Definition no_outer_space (s : str) : bool :=
  negb (starts_with_space s) && negb (starts_with_space (rev s)).




(** * Properties *)

(** ** The NUL substitution *)

Lemma replace_nul_idempotent (s : str) :
  str_replace_char NUL SP (str_replace_char NUL SP s) = str_replace_char NUL SP s.
Proof.
  unfold str_replace_char. rewrite map_map. apply map_ext.
  intros c. destruct (N.eqb_spec c NUL) as [->|Hc]; [reflexivity|].
  destruct (N.eqb_spec c NUL); congruence.
Qed.

Lemma replace_nul_no_nul (s : str) : ~ In NUL (str_replace_char NUL SP s).
Proof.
  unfold str_replace_char. rewrite in_map_iff. intros [c [Hc _]].
  destruct (N.eqb_spec c NUL); [discriminate | congruence].
Qed.


(** ** The shape of [_process] *)

Lemma process_paths (limit : nat) (self : Reader) (line : str) :
  NoMultilineQuotedReader_process limit self line =
  let line' := str_replace_char NUL SP line in
  if takes_repair_path self line
  then d <- repair_dialect self ;;
       parsed_line <- parse_single_line limit d line' ;;
       writerow d parsed_line
  else Ok line'.
Proof.
  unfold NoMultilineQuotedReader_process, takes_repair_path, all_quotes_safe,
    repair_dialect, parse_single_line.
  destruct (quote_char self) as [[|q quote]|]; cbv zeta; try reflexivity.
  set (nl := str_replace_char NUL SP line).
  destruct (str_count nl (q :: quote) =? 0)%Z; cbn [negb andb]; [reflexivity|].
  destruct (negb (str_contains nl [BACKSLASH])).
  - destruct (_ =? _)%Z; reflexivity.
  - destruct (str_count nl ([BACKSLASH] ++ q :: quote) =? _)%Z; [reflexivity|].
    destruct (_ =? _)%Z; reflexivity.
Qed.

Lemma process_pass_through (limit : nat) (self : Reader) (line : str) :
  takes_repair_path self line = false ->
  NoMultilineQuotedReader_process limit self line
  = Ok (str_replace_char NUL SP line).
Proof. intros H. rewrite process_paths. cbv zeta. rewrite H. reflexivity. Qed.

Lemma takes_repair_path_replace (self : Reader) (line : str) :
  takes_repair_path self (str_replace_char NUL SP line)
  = takes_repair_path self line.
Proof. unfold takes_repair_path. rewrite replace_nul_idempotent. reflexivity. Qed.

Lemma process_replace (limit : nat) (self : Reader) (line : str) :
  NoMultilineQuotedReader_process limit self (str_replace_char NUL SP line)
  = NoMultilineQuotedReader_process limit self line.
Proof.
  rewrite !process_paths. cbv zeta.
  rewrite takes_repair_path_replace, replace_nul_idempotent. reflexivity.
Qed.

(** ** Disabled quoting *)

(** C5: when the configured quote character is falsy ([None] or the empty
    string), the filter returns every line as it is after the substitution
    of NUL by a space, whatever the line holds. *)
Theorem disabled_quoting_is_identity (limit : nat) (self : Reader) (line : str) :
  truthy (quote_char self) = false ->
  NoMultilineQuotedReader_process limit self line
  = Ok (str_replace_char NUL SP line).
Proof.
  intros H. unfold NoMultilineQuotedReader_process.
  destruct (quote_char self) as [[|q quote]|]; [reflexivity | discriminate | reflexivity].
Qed.

Lemma disabled_quoting_is_identity_witness :
  truthy (quote_char (new_reader [] [COMMA] (Some []) false 0)) = false /\
  NoMultilineQuotedReader_process DEFAULT_FIELD_LIMIT
    (new_reader [] [COMMA] (Some []) false 0)
    (lit "a,b"%string ++ [DQUOTE; NUL] ++ lit "c,d"%string)
  = Ok (lit "a,b"%string ++ [DQUOTE; SP] ++ lit "c,d"%string).
Proof.
  split; [reflexivity|].
  apply (disabled_quoting_is_identity DEFAULT_FIELD_LIMIT
           (new_reader [] [COMMA] (Some []) false 0)
           (lit "a,b"%string ++ [DQUOTE; NUL] ++ lit "c,d"%string)).
  reflexivity.
Defined.

(** ** NUL characters *)

(** C6: on every path the first thing done to a line is the replacement of
    each NUL by one space: the base hook returns exactly the substituted
    line, the repair hook is a function of the substituted line alone and
    returns it unchanged whenever it does not repair; the substituted line
    has the length of the original, a space where it had a NUL and the
    same character elsewhere. The line [a,NULb,c] becomes [a, b,c] under
    both hooks. *)
Theorem nul_replaced_by_space (limit : nat) (self : Reader) (line : str) :
  Reader_process self line = str_replace_char NUL SP line
  /\ NoMultilineQuotedReader_process limit self line
     = NoMultilineQuotedReader_process limit self (str_replace_char NUL SP line)
  /\ (takes_repair_path self line = true
      \/ NoMultilineQuotedReader_process limit self line
         = Ok (str_replace_char NUL SP line))
  /\ length (str_replace_char NUL SP line) = length line
  /\ (forall i, nth_error (str_replace_char NUL SP line) i
                = option_map (fun c => if N.eqb c NUL then SP else c)
                    (nth_error line i))
  /\ ~ In NUL (str_replace_char NUL SP line)
  /\ Reader_process comma_reader (lit "a,"%string ++ [NUL] ++ lit "b,c"%string)
     = lit "a, b,c"%string
  /\ NoMultilineQuotedReader_process limit comma_reader
       (lit "a,"%string ++ [NUL] ++ lit "b,c"%string)
     = Ok (lit "a, b,c"%string).
Proof.
  repeat split.
  - symmetry. apply process_replace.
  - destruct (takes_repair_path self line) eqn:E; [left; reflexivity|].
    right. apply process_pass_through, E.
  - apply length_map.
  - intros i. apply nth_error_map.
  - apply replace_nul_no_nul.
Qed.

(** ** Counting and searching *)

Lemma startswith_app (p r s : str) :
  startswith (p ++ r) s = true -> startswith p s = true.
Proof.
  revert s. induction p as [|a p IH]; intros s H; [reflexivity|].
  destruct s as [|b s]; simpl in *; [discriminate|].
  apply andb_true_iff in H as [Hab H]. rewrite Hab. simpl. auto.
Qed.

Lemma str_contains_app (s p r : str) :
  str_contains s (p ++ r) = true -> str_contains s p = true.
Proof.
  induction s as [|c s IH]; simpl; intros H.
  - apply orb_true_iff in H as [H|H]; [|discriminate].
    rewrite (startswith_app _ _ _ H). reflexivity.
  - apply orb_true_iff in H as [H|H].
    + rewrite (startswith_app _ _ _ H). reflexivity.
    + rewrite (IH H). apply orb_true_r.
Qed.

Lemma count_from_contains (sub s : str) (skip : nat) :
  0 < count_from sub skip s -> str_contains s sub = true.
Proof.
  revert skip. induction s as [|c s IH]; simpl; intros skip H; [lia|].
  destruct skip as [|k].
  - destruct (startswith sub (c :: s)) eqn:E; [reflexivity|].
    simpl. eapply IH, H.
  - rewrite (IH _ H). apply orb_true_r.
Qed.

Lemma contains_count_from (sub s : str) :
  sub <> [] -> str_contains s sub = true -> 0 < count_from sub 0 s.
Proof.
  intros Hsub. induction s as [|c s IH]; simpl; intros H.
  - destruct sub; [congruence | discriminate].
  - destruct (startswith sub (c :: s)) eqn:E; [lia|]. simpl in H. auto.
Qed.

Lemma str_count_pos_iff (s sub : str) :
  sub <> [] -> (0 < str_count s sub)%Z <-> str_contains s sub = true.
Proof.
  intros Hsub. destruct sub as [|a sub]; [congruence|]. unfold str_count. split.
  - intros H. apply count_from_contains with (skip := 0). lia.
  - intros H. apply contains_count_from in H; [lia | discriminate].
Qed.

Lemma str_count_nonneg (s sub : str) : (0 <= str_count s sub)%Z.
Proof. unfold str_count. destruct sub; lia. Qed.

Lemma str_count_zero (s sub : str) :
  sub <> [] -> str_contains s sub = false -> str_count s sub = 0%Z.
Proof.
  intros Hsub H. pose proof (str_count_nonneg s sub).
  destruct (Z.eq_dec (str_count s sub) 0) as [|Hne]; [assumption|].
  assert (Hpos : (0 < str_count s sub)%Z) by lia.
  apply str_count_pos_iff in Hpos; congruence.
Qed.

Lemma no_marker_no_escaped (quote delimiter line : str) :
  str_contains line ([BACKSLASH] ++ quote) = false ->
  str_count line ([BACKSLASH] ++ quote) = 0%Z
  /\ str_count line ([BACKSLASH] ++ quote ++ delimiter) = 0%Z.
Proof.
  intros H. split; apply str_count_zero; try discriminate; try assumption.
  destruct (str_contains line ([BACKSLASH] ++ quote ++ delimiter)) eqn:E;
    [|reflexivity].
  change ([BACKSLASH] ++ quote ++ delimiter)
    with (BACKSLASH :: (quote ++ delimiter)) in E.
  change (BACKSLASH :: (quote ++ delimiter))
    with ((BACKSLASH :: quote) ++ delimiter) in E.
  apply str_contains_app in E. simpl in H. congruence.
Qed.

Lemma marker_needs_backslash (quote line : str) :
  str_contains line [BACKSLASH] = false ->
  str_contains line ([BACKSLASH] ++ quote) = false.
Proof.
  intros H. destruct (str_contains line ([BACKSLASH] ++ quote)) eqn:E;
    [|reflexivity].
  apply str_contains_app in E. congruence.
Qed.


Lemma adjusted_postfix_code (quote delimiter line : str) :
  adjusted_postfix quote delimiter line
  = (str_count line (quote ++ delimiter)
     - str_count line ([BACKSLASH] ++ quote ++ delimiter))%Z.
Proof.
  unfold adjusted_postfix.
  destruct (str_contains line ([BACKSLASH] ++ quote)) eqn:Hm; [reflexivity|].
  destruct (no_marker_no_escaped quote delimiter line Hm) as [_ Ht].
  rewrite Ht. lia.
Qed.

(** ** The safe positions *)

(** C3: for a line with at least one quote character, when the escaped
    quotes (backslash, quote) are as many as the quotes, or when the pairs
    of quote and delimiter, less the triples of backslash, quote and
    delimiter if an escape marker occurs, are as many as the quotes, the
    line is returned with nothing changed but NUL; so is the line [a,bQ,c],
    where Q is the double quote, with comma and double quote. *)
Theorem safe_counts_pass_through (limit : nat) (self : Reader)
    (quote line : str) :
  quote_char self = Some quote ->
  let line' := str_replace_char NUL SP line in
  (1 <= str_count line' quote)%Z ->
  str_count line' ([BACKSLASH] ++ quote) = str_count line' quote
  \/ adjusted_postfix quote (delimiter self) line' = str_count line' quote ->
  NoMultilineQuotedReader_process limit self line = Ok line'
  /\ NoMultilineQuotedReader_process limit comma_reader
       (lit "a,b"%string ++ [DQUOTE] ++ lit ",c"%string)
     = Ok (lit "a,b"%string ++ [DQUOTE] ++ lit ",c"%string).
Proof.
  intros Hq nl Hcount Hsafe. split; [|reflexivity].
  apply process_pass_through. unfold takes_repair_path. rewrite Hq.
  fold nl. destruct quote as [|q quote]; [reflexivity|].
  apply andb_false_iff. right. apply negb_false_iff.
  unfold all_quotes_safe.
  destruct Hsafe as [He|Hp].
  - assert (Hm : str_contains nl ([BACKSLASH] ++ q :: quote) = true).
    { apply str_count_pos_iff; [discriminate | lia]. }
    change ([BACKSLASH] ++ q :: quote) with ([BACKSLASH] ++ (q :: quote)) in Hm.
    apply str_contains_app in Hm. rewrite Hm. cbn [negb].
    rewrite He, Z.eqb_refl. reflexivity.
  - rewrite adjusted_postfix_code in Hp.
    destruct (str_contains nl [BACKSLASH]) eqn:Hb; cbn [negb].
    + destruct (_ =? _)%Z; [reflexivity|]. apply Z.eqb_eq, Hp.
    + pose proof (marker_needs_backslash (q :: quote) nl Hb) as Hm.
      destruct (no_marker_no_escaped (q :: quote) (delimiter self) nl Hm) as [_ Ht].
      rewrite Ht in Hp. apply Z.eqb_eq. lia.
Qed.

Lemma safe_counts_pass_through_witness :
  quote_char comma_reader = Some [DQUOTE]
  /\ (1 <= str_count (str_replace_char NUL SP
                       (lit "a,"%string ++ [BACKSLASH; DQUOTE] ++ lit "b,c"%string))
                    [DQUOTE])%Z
  /\ NoMultilineQuotedReader_process DEFAULT_FIELD_LIMIT comma_reader
       (lit "a,"%string ++ [BACKSLASH; DQUOTE] ++ lit "b,c"%string)
     = Ok (lit "a,"%string ++ [BACKSLASH; DQUOTE] ++ lit "b,c"%string).
Proof.
  split; [reflexivity|]. split; [vm_compute; discriminate|].
  apply (safe_counts_pass_through DEFAULT_FIELD_LIMIT comma_reader
           (quote := [DQUOTE])
           (lit "a,"%string ++ [BACKSLASH; DQUOTE] ++ lit "b,c"%string)).
  - reflexivity.
  - vm_compute; discriminate.
  - left. reflexivity.
Defined.

(** ** The branch on the backslash *)


(** ** Errors of the fallback parse *)

(** C8: on the repair path an exception raised by the single-line parse is
    the outcome of [_process]: nothing catches it, no default line is
    substituted and the line is not parsed again. *)
Theorem parse_error_propagates (limit : nat) (self : Reader) (line : str)
    (d : Dialect) (e : exn) :
  takes_repair_path self line = true ->
  repair_dialect self = Ok d ->
  parse_single_line limit d (str_replace_char NUL SP line) = Raise e ->
  NoMultilineQuotedReader_process limit self line = Raise e.
Proof.
  intros Hpath Hd Hparse. rewrite process_paths. cbv zeta.
  rewrite Hpath, Hd. simpl. rewrite Hparse. reflexivity.
Qed.

Lemma parse_error_propagates_witness :
  NoMultilineQuotedReader_process DEFAULT_FIELD_LIMIT comma_reader
    (lit "a"%string ++ [DQUOTE; LF] ++ lit "b"%string)
  = Raise (CsvError NewlineInUnquotedField).
Proof.
  apply (parse_error_propagates DEFAULT_FIELD_LIMIT comma_reader
           (lit "a"%string ++ [DQUOTE; LF] ++ lit "b"%string)
           (d := {| d_delimiter := COMMA; d_quotechar := Some DQUOTE;
                    d_quoting := QUOTE_MINIMAL; d_strict := false;
                    d_skipinitialspace := true |})).
  - reflexivity.
  - reflexivity.
  - vm_compute. reflexivity.
Defined.

(** ** Lines with escaped quotes and quotes before the delimiter *)

(** C1: the line [a\Qb,cQ,d], where Q is the double quote, has one escaped
    quote and one quote right before the delimiter, so each of its quotes
    is in a safe position; the filter does not return it as it is but
    parses and rewrites it. *)
Theorem mixed_safe_line_is_rewritten :
  let line := lit "a\"%string ++ [DQUOTE] ++ lit "b,c"%string
              ++ [DQUOTE] ++ lit ",d"%string in
  every_quote_safe DQUOTE COMMA line = true
  /\ takes_repair_path comma_reader line = true
  /\ NoMultilineQuotedReader_process DEFAULT_FIELD_LIMIT comma_reader line
     = Ok ([DQUOTE] ++ lit "a\"%string ++ [DQUOTE; DQUOTE] ++ lit "b"%string
           ++ [DQUOTE; COMMA; DQUOTE] ++ lit "c"%string
           ++ [DQUOTE; DQUOTE; DQUOTE] ++ lit ",d"%string ++ [CR; LF])
  /\ NoMultilineQuotedReader_process DEFAULT_FIELD_LIMIT comma_reader line
     <> Ok (str_replace_char NUL SP line).
Proof.
  cbv zeta. repeat split; try (vm_compute; reflexivity).
  vm_compute. discriminate.
Qed.

(** ** The canonical line *)

Section Writer.

Variable d : Dialect.
Variable q : char.
Hypothesis Hq : d_quotechar d = Some q.
Hypothesis Hminimal : d_quoting d = QUOTE_MINIMAL.

Lemma existsb_is_special (f : str) :
  existsb (is_special d) f = needs_quoting (d_delimiter d) q f.
Proof.
  unfold needs_quoting. induction f as [|c f IH]; [reflexivity|].
  cbn [existsb]. rewrite IH. f_equal.
  unfold is_special. rewrite Hq. simpl.
  rewrite orb_false_r, <- !orb_assoc. reflexivity.
Qed.

Lemma copy_field_double_quotes (f : str) :
  copy_field d f = double_quotes q f.
Proof.
  unfold copy_field, double_quotes. rewrite Hq.
  induction f as [|c f IH]; simpl; [reflexivity|]. rewrite IH.
  destruct (N.eqb_spec c q) as [->|]; reflexivity.
Qed.

Lemma double_quotes_plain (f : str) :
  needs_quoting (d_delimiter d) q f = false -> double_quotes q f = f.
Proof.
  unfold needs_quoting, double_quotes.
  induction f as [|c f IH]; simpl; intros H; [reflexivity|].
  apply orb_false_iff in H as [Hc Hf].
  apply orb_false_iff in Hc as [Hc _]. apply orb_false_iff in Hc as [Hc _].
  apply orb_false_iff in Hc as [_ Hc]. rewrite Hc. simpl. f_equal. auto.
Qed.

Lemma join_append_data_canonical (f : str) :
  join_append_data d false f = Ok (canonical_field (d_delimiter d) q f).
Proof.
  unfold join_append_data, canonical_field, quote_opt.
  rewrite Hminimal, Hq, existsb_is_special, copy_field_double_quotes.
  simpl. destruct (needs_quoting (d_delimiter d) q f) eqn:E; [reflexivity|].
  rewrite double_quotes_plain by assumption. reflexivity.
Qed.

Lemma join_fields_rest (fields : list str) :
  join_fields d false fields
  = Ok (flat_map (fun f => d_delimiter d :: canonical_field (d_delimiter d) q f)
          fields).
Proof.
  induction fields as [|f fields IH]; [reflexivity|].
  simpl. rewrite join_append_data_canonical, IH. reflexivity.
Qed.

Lemma join_cons (dl : char) (r : str) (rest : list str) :
  join dl (r :: rest) = r ++ flat_map (fun x => dl :: x) rest.
Proof.
  revert r. induction rest as [|r' rest IH]; intros r; simpl.
  - rewrite app_nil_r. reflexivity.
  - f_equal. f_equal. apply IH.
Qed.

Lemma join_fields_first (fields : list str) :
  join_fields d true fields
  = Ok (join (d_delimiter d) (map (canonical_field (d_delimiter d) q) fields)).
Proof.
  destruct fields as [|f fields]; [reflexivity|].
  cbn [join_fields map]. rewrite join_append_data_canonical, join_fields_rest.
  rewrite join_cons. simpl. do 2 f_equal.
  induction fields as [|f' fields IH]; [reflexivity|].
  simpl. rewrite IH. reflexivity.
Qed.

Lemma canonical_field_nil (f : str) :
  canonical_field (d_delimiter d) q f = [] -> f = [].
Proof.
  unfold canonical_field. destruct (needs_quoting _ _ f); [discriminate | auto].
Qed.

(** What [writerow] writes is the canonical line of the fields. *)
Lemma writerow_canonical (fields : list str) :
  writerow d fields = Ok (canonical_line (d_delimiter d) q fields).
Proof.
  unfold writerow, canonical_line. rewrite join_fields_first. simpl bind.
  destruct fields as [|f rest]; [reflexivity|].
  cbn [map]. rewrite join_cons.
  destruct (canonical_field (d_delimiter d) q f) as [|c r] eqn:Ef.
  - apply canonical_field_nil in Ef. subst f.
    destruct rest as [|f' rest]; simpl.
    + unfold join_append_data. rewrite Hminimal. unfold quote_opt.
      rewrite Hq. reflexivity.
    + reflexivity.
  - simpl. destruct f as [|c' f']; [discriminate Ef|]. reflexivity.
Qed.

End Writer.

Lemma make_dialect_inv (delim : str) (strict : bool) (quote : str)
    (skip : bool) (d : Dialect) :
  make_dialect delim strict (Some quote) DEFAULT_QUOTING skip = Ok d ->
  exists dl q, delim = [dl] /\ quote = [q]
    /\ d = {| d_delimiter := dl; d_quotechar := Some q;
              d_quoting := QUOTE_MINIMAL; d_strict := strict;
              d_skipinitialspace := skip |}.
Proof.
  unfold make_dialect. destruct delim as [|dl [|? ?]]; try discriminate.
  destruct quote as [|q [|? ?]]; try discriminate.
  intros H. injection H as <-. exists dl, q. auto.
Qed.

Lemma repair_path_dialect (self : Reader) (line : str) (d : Dialect) :
  takes_repair_path self line = true ->
  repair_dialect self = Ok d ->
  exists dl q, delimiter self = [dl] /\ quote_char self = Some [q]
    /\ d = {| d_delimiter := dl; d_quotechar := Some q;
              d_quoting := QUOTE_MINIMAL;
              d_strict := strict_delimitation self;
              d_skipinitialspace := true |}.
Proof.
  unfold takes_repair_path, repair_dialect.
  destruct (quote_char self) as [quote|]; [|discriminate].
  intros _ H. apply make_dialect_inv in H as (dl & q & Hdl & Hquote & Hd).
  exists dl, q. subst quote. auto.
Qed.

(** ** Resetting a reader *)

Lemma skipn_nth (A : Type) (l : list A) (p : nat) (x : A) :
  nth_error l p = Some x -> skipn p l = x :: skipn (S p) l.
Proof.
  revert p. induction l as [|a l IH]; intros [|p] H; try discriminate.
  - injection H as ->. reflexivity.
  - simpl in H. rewrite skipn_cons. apply IH, H.
Qed.

(** The header skip from an open file: either every read on the way gives
    a line, and the skip ends after [n] reads or at the end of the file,
    or it ends after the first read that fails. *)
Lemma skip_lines_file (n : nat) (self : Reader) (f : TextFile) :
  file self = Some f ->
  exists f',
    snd (skip_lines n self) = set_file (Some f') self
    /\ f_lines f' = f_lines f
    /\ ((forallb is_line (firstn n (skipn (f_pos f) (f_lines f))) = true
         /\ f_pos f' = (if f_pos f + n <=? length (f_lines f) then f_pos f + n
                        else Nat.max (f_pos f) (length (f_lines f)))
         /\ fst (skip_lines n self)
            = (if (n =? 0) || (f_pos f + n <=? length (f_lines f)) then Ok tt
               else Raise StopIteration))
        \/ (exists k e,
              k < n
              /\ nth_error (f_lines f) (f_pos f + k) = Some (Failed e)
              /\ forallb is_line (firstn k (skipn (f_pos f) (f_lines f))) = true
              /\ f_pos f' = f_pos f + S k
              /\ fst (skip_lines n self) = Raise (read_exn e))).
Proof.
  revert self f. induction n as [|n IH]; intros self f Hf.
  - exists f. simpl. rewrite Nat.add_0_r.
    assert (Hself : self = set_file (Some f) self)
      by (destruct self; unfold set_file; simpl in *; rewrite Hf; reflexivity).
    split; [exact Hself|]. split; [reflexivity|]. left.
    destruct (Nat.leb_spec (f_pos f) (length (f_lines f)));
      repeat split; lia.
  - cbn [skip_lines]. rewrite Hf. unfold file_next.
    destruct (nth_error (f_lines f) (f_pos f)) as [[l|e]|] eqn:E.
    + assert (Hlt : f_pos f < length (f_lines f))
        by (apply nth_error_Some; congruence).
      set (f1 := {| f_lines := f_lines f; f_pos := S (f_pos f) |}).
      destruct (IH (set_file (Some f1) self) f1 eq_refl)
        as (f' & Hs & Hl & Hcase).
      exists f'. rewrite Hs, Hl. split; [reflexivity|]. split; [reflexivity|].
      rewrite (skipn_nth _ _ E). subst f1. cbn [f_lines f_pos] in *.
      destruct Hcase as [(Hall & Hp & Ho)|(k & e & Hk & Hnth & Hall & Hp & Ho)].
      * left. rewrite Ho, Hp. cbn [firstn forallb is_line andb].
        replace (S (f_pos f) + n) with (f_pos f + S n) by lia.
        split; [exact Hall|]. split.
        -- destruct (Nat.leb_spec (f_pos f + S n) (length (f_lines f))); lia.
        -- cbn [Nat.eqb orb].
           destruct (Nat.eqb_spec n 0) as [Hn|Hn]; [|reflexivity].
           rewrite Hn.
           destruct (Nat.leb_spec (f_pos f + 1) (length (f_lines f)));
             [reflexivity | lia].
      * right. exists (S k), e. rewrite Ho, Hp.
        replace (f_pos f + S k) with (S (f_pos f) + k) by lia.
        cbn [firstn forallb is_line andb].
        repeat split; try assumption; lia.
    + exists {| f_lines := f_lines f; f_pos := S (f_pos f) |}.
      cbn [fst snd f_lines f_pos]. split; [reflexivity|].
      split; [reflexivity|]. right. exists 0, e.
      rewrite Nat.add_0_r. cbn [firstn forallb].
      repeat split; try assumption; lia.
    + apply nth_error_None in E. exists f. cbn [fst snd Nat.eqb orb].
      assert (Hself : self = set_file (Some f) self)
        by (destruct self; unfold set_file; simpl in *; rewrite Hf; reflexivity).
      split; [reflexivity|]. split; [reflexivity|]. left.
      rewrite skipn_all2 by exact E. rewrite firstn_nil.
      destruct (Nat.leb_spec (f_pos f + S n) (length (f_lines f))); [lia|].
      repeat split; lia.
Qed.

Lemma reset_open_reader (fs : str -> option (list read)) (self : Reader)
    (f : TextFile) :
  file self = Some f ->
  let n := Z.to_nat (number_of_header_lines self) in
  exists f',
    snd (reset fs self)
    = set_file (Some f') (set_rows_read (Some 0%Z) self)
    /\ f_lines f' = f_lines f
    /\ ((forallb is_line (firstn n (f_lines f)) = true
         /\ f_pos f' = Nat.min n (length (f_lines f))
         /\ fst (reset fs self)
            = (if n <=? length (f_lines f) then Ok tt
               else Raise StopIteration))
        \/ (exists k e,
              k < n
              /\ nth_error (f_lines f) k = Some (Failed e)
              /\ forallb is_line (firstn k (f_lines f)) = true
              /\ f_pos f' = S k
              /\ fst (reset fs self) = Raise (read_exn e))).
Proof.
  intros Hf n. unfold reset. rewrite Hf.
  destruct (skip_lines_file n
              (set_rows_read (Some 0%Z) (set_file (Some (seek0 f)) self))
              (f := seek0 f) eq_refl) as (f' & Hs & Hl & Hcase).
  exists f'. simpl in *. fold n.
  rewrite Hs. split; [reflexivity|]. split; [exact Hl|].
  destruct Hcase as [(Hall & Hp & Ho)|(k & e & Hk & Hnth & Hall & Hp & Ho)].
  - left. rewrite Ho, Hp. split; [exact Hall|]. split.
    + destruct (Nat.leb_spec n (length (f_lines f))); lia.
    + destruct n as [|m]; reflexivity.
  - right. exists k, e. auto.
Qed.






(** ** Repairing twice *)


(** ** The parser on one line *)

Lemma parse_chars_app (d : Dialect) (limit : nat) (p : Parser) (a b : str) :
  parse_chars d limit p (a ++ b)
  = (p' <- parse_chars d limit p a ;; parse_chars d limit p' b).
Proof.
  revert p. induction a as [|c a IH]; intros p; [reflexivity|].
  simpl. destruct (parse_process_char d limit p (Some c)); simpl; auto.
Qed.

(** [next] of a reader over a single line. *)
Lemma iternext_single (d : Dialect) (limit : nat) (line : str) :
  fst (Reader_iternext d limit [line])
  = (p <- parse_chars d limit parse_reset line ;;
     p' <- parse_process_char d limit p None ;;
     if ParserState_eqb (p_state p') START_RECORD
     then Ok (rev (p_fields p'))
     else if negb (length (p_field p') =? 0)
             || ParserState_eqb (p_state p') IN_QUOTED_FIELD
          then if d_strict d then Raise (CsvError UnexpectedEndOfData)
               else Ok (rev (p_fields (parse_save_field p')))
          else Raise StopIteration).
Proof.
  unfold Reader_iternext, iternext_loop, parse_line.
  destruct (parse_chars d limit parse_reset line) as [p|e]; [|reflexivity].
  simpl. destruct (parse_process_char d limit p None) as [p'|e]; [|reflexivity].
  simpl. destruct (ParserState_eqb (p_state p') START_RECORD); [reflexivity|].
  destruct (_ || _); [|reflexivity]. destruct (d_strict d); reflexivity.
Qed.

Section FieldContents.

(** A property [R] of strings that every field inherits from the
    characters of the line, which satisfy [C]. *)
Variable d : Dialect.
Variable limit : nat.
Variable R : str -> Prop.
Variable C : char -> Prop.
Hypothesis R_nil : R [].
Hypothesis R_rev : forall b, R b -> R (rev b).
Hypothesis R_cons : forall b c, R b -> C c -> length b < limit -> R (c :: b).

Lemma contents_step (p p' : Parser) (oc : option char) :
  contents_ok R p ->
  match oc with Some c => C c | None => True end ->
  parse_process_char d limit p oc = Ok p' ->
  contents_ok R p'.
Proof.
  intros [Hb Hfs] Hc H. destruct p as [st b fs]. simpl in *.
  destruct st, oc as [c|]; parser_step H; injection H as <-;
    split; simpl; auto;
    match goal with
    | E : (limit <=? length b) = false |- _ => apply Nat.leb_gt in E; auto
    end.
Qed.

Lemma contents_chars (line : str) (p p' : Parser) :
  Forall C line -> contents_ok R p ->
  parse_chars d limit p line = Ok p' -> contents_ok R p'.
Proof.
  revert p. induction line as [|c line IH]; intros p Hl Hp H; simpl in H.
  - injection H as <-. exact Hp.
  - inversion Hl as [|? ? Hc Hl']; subst.
    destruct (parse_process_char d limit p (Some c)) as [p1|] eqn:E;
      [|discriminate]. simpl in H.
    apply (IH p1 Hl'); [|exact H].
    exact (contents_step (Some c) Hp Hc E).
Qed.

Lemma contents_fields (line : str) (fields : list str) :
  Forall C line ->
  fst (Reader_iternext d limit [line]) = Ok fields -> Forall R fields.
Proof.
  intros Hl. rewrite iternext_single.
  destruct (parse_chars d limit parse_reset line) as [p|] eqn:E1; [|discriminate].
  simpl. destruct (parse_process_char d limit p None) as [p'|] eqn:E2;
    [|discriminate]. simpl.
  assert (Hp' : contents_ok R p').
  { apply (contents_step (p := p) None); [|exact I|exact E2].
    apply (contents_chars Hl (p := parse_reset)); [|exact E1].
    split; simpl; auto. }
  destruct Hp' as [Hb Hfs].
  destruct (ParserState_eqb _ _).
  - intros H. injection H as <-. apply Forall_rev, Hfs.
  - destruct (_ || _); [|discriminate]. destruct (d_strict d); [discriminate|].
    intros H. injection H as <-.
    change (Forall R (rev (rev (p_field p') :: p_fields p'))).
    apply Forall_rev. auto.
Qed.

End FieldContents.

(** No field is longer than the field size limit. *)
Lemma fields_within_limit (d : Dialect) (limit : nat) (line : str)
    (fields : list str) :
  fst (Reader_iternext d limit [line]) = Ok fields ->
  Forall (fun f => length f <= limit) fields.
Proof.
  apply contents_fields with (C := fun _ => True).
  - simpl. lia.
  - intros b. rewrite length_rev. auto.
  - intros b c _ _ H. simpl. lia.
  - apply Forall_forall. auto.
Qed.

(** The characters of the fields are characters of the line. *)
Lemma fields_from_line (d : Dialect) (limit : nat) (P : char -> Prop)
    (line : str) (fields : list str) :
  Forall P line ->
  fst (Reader_iternext d limit [line]) = Ok fields ->
  Forall (Forall P) fields.
Proof.
  apply contents_fields.
  - constructor.
  - intros b. apply Forall_rev.
  - intros b c Hb Hc _. constructor; assumption.
Qed.

Section RecordShape.

Variable d : Dialect.
Variable limit : nat.

Lemma started_first (c : char) (p' : Parser) :
  is_newline c = false ->
  parse_process_char d limit parse_reset (Some c) = Ok p' ->
  record_started p'.
Proof.
  intros Hc H. unfold parse_process_char, parse_reset in H. simpl in H.
  rewrite Hc in H. parser_step H; injection H as <-; exact I.
Qed.

Lemma started_step (p p' : Parser) (c : char) :
  record_started p ->
  parse_process_char d limit p (Some c) = Ok p' ->
  record_started p'.
Proof.
  unfold record_started. intros Hp H. destruct p as [st b fs]. simpl in *.
  destruct st; try contradiction; parser_step H; injection H as <-; simpl;
    solve [exact I | discriminate | assumption].
Qed.

Lemma started_chars (line : str) (p p' : Parser) :
  record_started p ->
  parse_chars d limit p line = Ok p' -> record_started p'.
Proof.
  revert p. induction line as [|c line IH]; intros p Hp H; simpl in H.
  - injection H as <-. exact Hp.
  - destruct (parse_process_char d limit p (Some c)) as [p1|] eqn:E;
      [|discriminate]. simpl in H.
    exact (IH p1 (started_step _ _ Hp E) H).
Qed.

(** A line that does not start with a line break has at least one field. *)
Lemma iternext_nonempty (c : char) (rest : str) (fields : list str) :
  is_newline c = false ->
  fst (Reader_iternext d limit [c :: rest]) = Ok fields ->
  fields <> [].
Proof.
  intros Hc. rewrite iternext_single. simpl parse_chars.
  destruct (parse_process_char d limit parse_reset (Some c)) as [p0|] eqn:E0;
    [|discriminate]. simpl.
  destruct (parse_chars d limit p0 rest) as [p|] eqn:E1; [|discriminate].
  simpl.
  assert (Hp : record_started p)
    by exact (started_chars _ _ (started_first _ Hc E0) E1).
  destruct (parse_process_char d limit p None) as [p'|] eqn:E2; [|discriminate].
  simpl. unfold record_started in Hp. destruct p as [st b fs]. simpl in *.
  destruct st; try contradiction; parser_step E2; injection E2 as <-;
    cbn [p_state p_field p_fields parse_save_field ParserState_eqb set_state];
    repeat match goal with
           | |- context [if ?x then _ else _] => destruct x
           end;
    intros H; try discriminate H; injection H as <-;
    intros Hnil; apply (f_equal (@length str)) in Hnil;
    rewrite ?length_app, ?length_rev in Hnil; simpl in Hnil; try lia;
    destruct fs; [congruence | simpl in Hnil; lia].
Qed.

Lemma at_most_one_step (p p' : Parser) (c : char) :
  c <> d_delimiter d ->
  at_most_one p ->
  parse_process_char d limit p (Some c) = Ok p' ->
  at_most_one p'.
Proof.
  unfold at_most_one. intros Hc Hp H. destruct p as [st b fs]. simpl in *.
  destruct st; parser_step H; injection H as <-; simpl; subst;
    try solve [reflexivity | assumption | simpl; lia];
    match goal with
    | E : (c =? d_delimiter d)%N = true |- _ => apply N.eqb_eq in E; contradiction
    end.
Qed.

Lemma at_most_one_chars (line : str) (p p' : Parser) :
  ~ In (d_delimiter d) line ->
  at_most_one p ->
  parse_chars d limit p line = Ok p' -> at_most_one p'.
Proof.
  revert p. induction line as [|c line IH]; intros p Hl Hp H; simpl in H.
  - injection H as <-. exact Hp.
  - destruct (parse_process_char d limit p (Some c)) as [p1|] eqn:E;
      [|discriminate]. simpl in H.
    apply (IH p1); [simpl in Hl; tauto | | exact H].
    apply at_most_one_step with (p := p) (c := c);
      [intros Hc; apply Hl; left; exact Hc | exact Hp | exact E].
Qed.

Lemma fields_without_delimiter (line : str) (fields : list str) :
  ~ In (d_delimiter d) line ->
  fst (Reader_iternext d limit [line]) = Ok fields ->
  length fields <= 1.
Proof.
  intros Hl. rewrite iternext_single.
  destruct (parse_chars d limit parse_reset line) as [p|] eqn:E1; [|discriminate].
  simpl.
  assert (Hp : at_most_one p)
    by exact (at_most_one_chars line parse_reset Hl eq_refl E1).
  destruct (parse_process_char d limit p None) as [p'|] eqn:E2; [|discriminate].
  simpl. unfold at_most_one in Hp. destruct p as [st b fs]. simpl in *.
  destruct st; parser_step E2; injection E2 as <-;
    cbn [p_state p_field p_fields parse_save_field ParserState_eqb set_state];
    repeat match goal with
           | |- context [if ?x then _ else _] => destruct x
           end;
    intros H; try discriminate H; injection H as <-;
    rewrite ?length_app, ?length_rev; subst; simpl; lia.
Qed.

End RecordShape.

(** ** Stripping *)

Lemma lstrip_In (c : char) (s : str) : In c (lstrip s) -> In c s.
Proof.
  induction s as [|a s IH]; simpl; [auto|].
  destruct (isspace a); simpl; auto.
Qed.

Lemma lstrip_keeps (c : char) (s : str) :
  isspace c = false -> In c s -> In c (lstrip s).
Proof.
  intros Hc. induction s as [|a s IH]; simpl; [auto|].
  destruct (isspace a) eqn:Ea; [|auto].
  intros [->|H]; [congruence | auto].
Qed.

Lemma strip_In (c : char) (s : str) : In c (strip s) -> In c s.
Proof.
  unfold strip, rstrip. intros H. apply in_rev, lstrip_In, in_rev in H.
  apply lstrip_In, H.
Qed.

Lemma strip_keeps (c : char) (s : str) :
  isspace c = false -> In c s -> In c (strip s).
Proof.
  intros Hc H. unfold strip, rstrip. apply in_rev. rewrite rev_involutive.
  apply lstrip_keeps; [assumption|]. apply -> in_rev.
  apply lstrip_keeps; assumption.
Qed.

Lemma lstrip_head (s t : str) (c : char) :
  lstrip s = c :: t -> isspace c = false.
Proof.
  induction s as [|a s IH]; simpl; [discriminate|].
  destruct (isspace a) eqn:Ea; [auto|]. intros H. injection H as <- _. exact Ea.
Qed.

Lemma lstrip_snoc (s : str) (c : char) :
  isspace c = false -> lstrip (s ++ [c]) = lstrip s ++ [c].
Proof.
  intros Hc. induction s as [|a s IH]; simpl; [rewrite Hc; reflexivity|].
  destruct (isspace a); [exact IH | reflexivity].
Qed.

Lemma strip_head (s t : str) (c : char) :
  strip s = c :: t -> isspace c = false.
Proof.
  unfold strip, rstrip. destruct (lstrip s) as [|a u] eqn:E; [discriminate|].
  pose proof (lstrip_head _ E) as Ha.
  simpl rev. rewrite lstrip_snoc by exact Ha. rewrite rev_app_distr. simpl.
  intros H. injection H as <- _. exact Ha.
Qed.

Lemma isspace_newline (c : char) : isspace c = false -> is_newline c = false.
Proof.
  unfold is_newline. intros H.
  destruct (N.eqb_spec c LF) as [->|_]; [discriminate H|].
  destruct (N.eqb_spec c CR) as [->|_]; [discriminate H | reflexivity].
Qed.

(** ** The replacement line *)

Lemma lstrip_split (s : str) :
  exists pre, s = pre ++ lstrip s /\ forallb isspace pre = true.
Proof.
  induction s as [|c s (pre & Hs & Hpre)]; [exists []; auto|].
  simpl. destruct (isspace c) eqn:Ec.
  - exists (c :: pre). simpl. rewrite Ec, Hpre. split; [congruence | reflexivity].
  - exists []. auto.
Qed.

Lemma forallb_rev (A : Type) (f : A -> bool) (l : list A) :
  forallb f l = true -> forallb f (rev l) = true.
Proof.
  rewrite !forallb_forall. intros H x Hx. apply H, in_rev, Hx.
Qed.

(** [strip] takes the characters it removes, and nothing else, from both
    ends of the string. *)
Lemma strip_split (s : str) :
  exists pre post,
    s = pre ++ strip s ++ post
    /\ forallb isspace pre = true /\ forallb isspace post = true
    /\ no_outer_space (strip s) = true.
Proof.
  destruct (lstrip_split s) as (pre & Hs & Hpre).
  destruct (lstrip_split (rev (lstrip s))) as (post & Ht & Hpost).
  exists pre, (rev post). repeat split.
  - rewrite Hs at 1. f_equal. unfold strip, rstrip.
    rewrite <- rev_app_distr, <- Ht, rev_involutive. reflexivity.
  - exact Hpre.
  - apply forallb_rev, Hpost.
  - unfold no_outer_space, starts_with_space. apply andb_true_iff. split.
    + destruct (strip s) as [|c t] eqn:E; [reflexivity|].
      rewrite (strip_head _ E). reflexivity.
    + unfold strip, rstrip. rewrite rev_involutive.
      destruct (lstrip (rev (lstrip s))) as [|c t] eqn:E; [reflexivity|].
      rewrite (lstrip_head _ E). reflexivity.
Qed.

(** The terminator of the replacement line is not that of the line: a
    line that ends with LF, as the lines of a file opened with
    [newline=None] do, and a line without a terminator are both replaced
    by a line that ends with CR LF. Here Q is the double quote and the
    lines are [a,bQc,d] with and without LF. *)
Lemma repair_replaces_terminator :
  let text := lit "a,b"%string ++ [DQUOTE] ++ lit "c,d"%string in
  let written := lit "a,"%string ++ [DQUOTE] ++ lit "b"%string
                 ++ [DQUOTE; DQUOTE] ++ lit "c"%string ++ [DQUOTE]
                 ++ lit ",d"%string in
  NoMultilineQuotedReader_process DEFAULT_FIELD_LIMIT comma_reader
    (text ++ [LF]) = Ok (written ++ [CR; LF])
  /\ NoMultilineQuotedReader_process DEFAULT_FIELD_LIMIT comma_reader text
     = Ok (written ++ [CR; LF])
  /\ written ++ [CR; LF] <> written ++ [LF]
  /\ written ++ [CR; LF] <> written.
Proof.
  cbv zeta. repeat split; try (vm_compute; reflexivity);
    vm_compute; discriminate.
Qed.

(** C4 (amended): on the repair path the line, with its NUL characters
    replaced, is cut down to what lies between the characters [strip]
    removes at its two ends, its terminator among them, and parsed as one
    record under the dialect of the reader, lenient or strict as
    [strict_delimitation] says; the replacement line is the canonical line
    of the fields, written with the delimiter and the quote character of
    the reader: fields that hold the delimiter, the quote character, CR or
    LF are quoted, quote characters inside them are doubled, and the line
    ends with CR LF, the line terminator of the csv writer, whatever
    terminator the line had. The line [a,bQc,d], where Q is the double
    quote, is replaced by [a,QbQQcQ,d] CR LF, with and without spaces
    around it and a LF after it. *)
Theorem repair_writes_canonical_line (limit : nat) (self : Reader)
    (line : str) (d : Dialect) :
  takes_repair_path self line = true ->
  repair_dialect self = Ok d ->
  (exists dl q pre body post,
     quote_char self = Some [q] /\ delimiter self = [dl]
     /\ d = {| d_delimiter := dl; d_quotechar := Some q;
               d_quoting := QUOTE_MINIMAL;
               d_strict := strict_delimitation self;
               d_skipinitialspace := true |}
     /\ str_replace_char NUL SP line = pre ++ body ++ post
     /\ forallb isspace pre = true /\ forallb isspace post = true
     /\ no_outer_space body = true
     /\ NoMultilineQuotedReader_process limit self line
        = (fields <- fst (Reader_iternext d limit [body]) ;;
           Ok (canonical_line dl q fields)))
  /\ NoMultilineQuotedReader_process DEFAULT_FIELD_LIMIT comma_reader
       (lit "a,b"%string ++ [DQUOTE] ++ lit "c,d"%string)
     = Ok (lit "a,"%string ++ [DQUOTE] ++ lit "b"%string ++ [DQUOTE; DQUOTE]
           ++ lit "c"%string ++ [DQUOTE] ++ lit ",d"%string ++ [CR; LF])
  /\ NoMultilineQuotedReader_process DEFAULT_FIELD_LIMIT comma_reader
       (lit "  a,b"%string ++ [DQUOTE] ++ lit "c,d "%string ++ [LF])
     = Ok (lit "a,"%string ++ [DQUOTE] ++ lit "b"%string ++ [DQUOTE; DQUOTE]
           ++ lit "c"%string ++ [DQUOTE] ++ lit ",d"%string ++ [CR; LF]).
Proof.
  intros Hpath Hd.
  split; [|split; vm_compute; reflexivity].
  destruct (repair_path_dialect self line Hpath Hd) as (dl & q & Hdl & Hquote & Ed).
  destruct (strip_split (str_replace_char NUL SP line))
    as (pre & post & Hsplit & Hpre & Hpost & Hbody).
  exists dl, q, pre, (strip (str_replace_char NUL SP line)), post.
  repeat split; try assumption.
  rewrite process_paths. cbv zeta. rewrite Hpath, Hd. simpl.
  unfold parse_single_line.
  destruct (fst (Reader_iternext d limit _)) as [fields|e]; [|reflexivity].
  simpl. rewrite (@writerow_canonical d q) by (subst d; reflexivity).
  subst d. reflexivity.
Qed.

Lemma repair_writes_canonical_line_witness :
  exists dl q pre body post,
    quote_char comma_reader = Some [q] /\ delimiter comma_reader = [dl]
    /\ {| d_delimiter := COMMA; d_quotechar := Some DQUOTE;
          d_quoting := QUOTE_MINIMAL; d_strict := false;
          d_skipinitialspace := true |}
       = {| d_delimiter := dl; d_quotechar := Some q;
            d_quoting := QUOTE_MINIMAL;
            d_strict := strict_delimitation comma_reader;
            d_skipinitialspace := true |}
    /\ str_replace_char NUL SP (SP :: [DQUOTE; DQUOTE] ++ [LF])
       = pre ++ body ++ post
    /\ forallb isspace pre = true /\ forallb isspace post = true
    /\ no_outer_space body = true
    /\ NoMultilineQuotedReader_process DEFAULT_FIELD_LIMIT comma_reader
         (SP :: [DQUOTE; DQUOTE] ++ [LF])
       = (fields <- fst (Reader_iternext
                           {| d_delimiter := COMMA; d_quotechar := Some DQUOTE;
                              d_quoting := QUOTE_MINIMAL; d_strict := false;
                              d_skipinitialspace := true |}
                           DEFAULT_FIELD_LIMIT [body]) ;;
          Ok (canonical_line dl q fields)).
Proof.
  apply (@repair_writes_canonical_line DEFAULT_FIELD_LIMIT comma_reader
           (SP :: [DQUOTE; DQUOTE] ++ [LF])
           {| d_delimiter := COMMA; d_quotechar := Some DQUOTE;
              d_quoting := QUOTE_MINIMAL; d_strict := false;
              d_skipinitialspace := true |}); reflexivity.
Defined.

(** ** The characters of the canonical line *)

Lemma in_double_quotes (c q : char) (f : str) :
  In c (double_quotes q f) -> c = q \/ In c f.
Proof.
  unfold double_quotes. rewrite in_flat_map. intros (x & Hx & Hc).
  destruct (N.eqb_spec x q) as [->|_]; simpl in Hc; intuition (subst; auto).
Qed.

Lemma in_canonical_field (c dl q : char) (f : str) :
  In c (canonical_field dl q f) -> c = q \/ In c f.
Proof.
  unfold canonical_field. destruct (needs_quoting dl q f); [|auto].
  simpl. rewrite in_app_iff. simpl.
  intros [H|[H|[H|[]]]]; auto using in_double_quotes.
Qed.

Lemma in_canonical_line (c dl q : char) (fields : list str) :
  In c (canonical_line dl q fields) ->
  c = q \/ c = CR \/ c = LF \/ (c = dl /\ 2 <= length fields)
  \/ exists f, In f fields /\ In c f.
Proof.
  unfold canonical_line. rewrite in_app_iff. intros [H|H].
  - assert (Hj : In c (join dl (map (canonical_field dl q) fields)) \/ c = q).
    { destruct fields as [|[|a f] [|f' rest]]; auto.
      simpl in H. intuition auto. }
    destruct Hj as [Hj|Hj]; [|auto].
    destruct fields as [|f rest]; [contradiction|].
    cbn [map] in Hj. rewrite (join_cons dl) in Hj. apply in_app_iff in Hj as [Hj|Hj].
    + apply in_canonical_field in Hj as [Hj|Hj]; [auto|].
      right. right. right. right. exists f. simpl. auto.
    + apply in_flat_map in Hj as (x & Hx & Hc).
      apply in_map_iff in Hx as (f' & <- & Hf').
      destruct Hc as [Hc|Hc].
      * right. right. right. left. split; [auto|].
        destruct rest; [contradiction | simpl; lia].
      * apply in_canonical_field in Hc as [Hc|Hc]; [auto|].
        right. right. right. right. exists f'. simpl. auto.
  - simpl in H. intuition auto.
Qed.

Lemma count_pos_In (s : str) (q : char) :
  str_count s [q] <> 0%Z -> In q s.
Proof.
  intros H. assert (Hc : str_contains s [q] = true).
  { apply str_count_pos_iff; [discriminate|].
    pose proof (str_count_nonneg s [q]). lia. }
  clear H. induction s as [|a s IH]; simpl in Hc; [discriminate|].
  destruct (N.eqb_spec q a) as [E|E]; [left; symmetry; exact E|].
  right. apply IH. exact Hc.
Qed.

Lemma repair_path_quote_In (self : Reader) (line : str) (q : char) :
  takes_repair_path self line = true ->
  quote_char self = Some [q] ->
  In q (str_replace_char NUL SP line).
Proof.
  unfold takes_repair_path. intros H Hq. rewrite Hq in H.
  apply andb_true_iff in H as [H _]. apply negb_true_iff, Z.eqb_neq in H.
  apply count_pos_In, H.
Qed.

(** On the repair path the replacement line holds no NUL. *)
Lemma repaired_line_no_nul (limit : nat) (self : Reader) (line out : str) :
  takes_repair_path self line = true ->
  NoMultilineQuotedReader_process limit self line = Ok out ->
  ~ In NUL out.
Proof.
  intros Hpath Hout. rewrite process_paths in Hout. cbv zeta in Hout.
  rewrite Hpath in Hout.
  destruct (repair_dialect self) as [d|] eqn:Hd; [|discriminate]. simpl in Hout.
  destruct (repair_path_dialect self line Hpath Hd) as (dl & q & Hdl & Hquote & Ed).
  destruct (parse_single_line limit d _) as [fields|] eqn:Hp; [|discriminate].
  simpl in Hout.
  rewrite (@writerow_canonical d q) in Hout by (subst d; reflexivity).
  injection Hout as <-. replace (d_delimiter d) with dl by (subst d; reflexivity).
  pose proof (replace_nul_no_nul line) as Hnl.
  pose proof (repair_path_quote_In self line Hpath Hquote) as Hqin.
  assert (Hs : Forall (fun c => c <> NUL) (strip (str_replace_char NUL SP line))).
  { apply Forall_forall. intros c Hc ->. apply strip_In in Hc. contradiction. }
  pose proof (fields_from_line _ _ Hs Hp) as Hfields.
  intros Hin. apply in_canonical_line in Hin
    as [H|[H|[H|[[H Hlen]|(f & Hf & Hc)]]]]; try discriminate H.
  - rewrite <- H in Hqin. contradiction.
  - assert (Hno : ~ In (d_delimiter d) (strip (str_replace_char NUL SP line))).
    { subst d. simpl. rewrite <- H. intros Hc. apply strip_In in Hc. contradiction. }
    pose proof (fields_without_delimiter _ _ _ Hno Hp). lia.
  - rewrite Forall_forall in Hfields. specialize (Hfields f Hf).
    rewrite Forall_forall in Hfields. exact (Hfields NUL Hc eq_refl).
Qed.

(** ** Splitting the canonical line *)

Section Reparse.

Variables dl q : char.
Variables strict skip : bool.
Variable limit : nat.
Hypothesis Hqd : q <> dl.
Hypothesis Hq_nl : is_newline q = false.
Hypothesis Hdl_nl : is_newline dl = false.

Local Abbreviation d :=
  {| d_delimiter := dl; d_quotechar := Some q; d_quoting := QUOTE_MINIMAL;
     d_strict := strict; d_skipinitialspace := skip |}.

Local Abbreviation parser st b fs :=
  {| p_state := st; p_field := b; p_fields := fs |}.

Lemma plain_tests (c : char) :
  plain dl q c ->
  N.eqb c dl = false /\ N.eqb c q = false /\ is_newline c = false.
Proof.
  unfold plain, is_newline. intros H.
  apply orb_false_iff in H as [H Hlf]. apply orb_false_iff in H as [H Hcr].
  apply orb_false_iff in H as [Hd Hq]. rewrite Hlf, Hcr. auto.
Qed.

Lemma needs_quoting_plain (f : str) :
  needs_quoting dl q f = false -> Forall (plain dl q) f.
Proof.
  unfold needs_quoting. induction f as [|c f IH]; simpl; intros H; [constructor|].
  apply orb_false_iff in H as [Hc Hf]. constructor; auto.
Qed.

Lemma plain_in_field (g b : str) (fs : list str) :
  Forall (plain dl q) g -> length b + length g <= limit ->
  parse_chars d limit (parser IN_FIELD b fs) g
  = Ok (parser IN_FIELD (rev g ++ b) fs).
Proof.
  revert b. induction g as [|c g IH]; intros b Hg Hlen; [reflexivity|].
  inversion Hg as [|? ? Hc Hg']; subst.
  destruct (@plain_tests c Hc) as (Hd & _ & Hn).
  simpl in Hlen. simpl parse_chars.
  unfold parse_process_char, parse_add_char. simpl.
  rewrite Hn, Hd. destruct (Nat.leb_spec limit (length b)); [lia|]. simpl.
  rewrite IH by (simpl; auto; lia). rewrite <- app_assoc. reflexivity.
Qed.

Lemma plain_start_field (g : str) (fs : list str) :
  Forall (plain dl q) g -> length g <= limit ->
  parse_chars d limit (parser START_FIELD [] fs) g
  = Ok (parser START_FIELD [] fs)
  \/ exists b, parse_chars d limit (parser START_FIELD [] fs) g
               = Ok (parser IN_FIELD b fs).
Proof.
  induction g as [|c g IH]; intros Hg Hlen; [left; reflexivity|].
  inversion Hg as [|? ? Hc Hg']; subst.
  destruct (@plain_tests c Hc) as (Hd & Hq & Hn).
  simpl in Hlen. simpl parse_chars.
  unfold parse_process_char, parse_add_char, is_quotechar. simpl.
  rewrite Hn, Hq, Hd. destruct (N.eqb c SP && skip).
  - simpl. apply IH; [assumption | lia].
  - destruct (Nat.leb_spec limit 0); [lia|]. simpl.
    right. eexists. apply plain_in_field; [assumption | simpl; lia].
Qed.

Lemma quoted_body (f b : str) (fs : list str) :
  length b + length f <= limit ->
  parse_chars d limit (parser IN_QUOTED_FIELD b fs) (double_quotes q f)
  = Ok (parser IN_QUOTED_FIELD (rev f ++ b) fs).
Proof.
  revert b. induction f as [|c f IH]; intros b Hlen; [reflexivity|].
  simpl in Hlen. unfold double_quotes. simpl flat_map.
  fold (double_quotes q f). rewrite parse_chars_app.
  match goal with
  | |- bind ?m _ = _ =>
      assert (Hstep : m = Ok (parser IN_QUOTED_FIELD (c :: b) fs))
  end.
  { destruct (N.eqb_spec c q) as [Hc|Hc].
    - subst c. simpl. unfold parse_process_char, parse_add_char, is_quotechar.
      simpl. rewrite N.eqb_refl. simpl. rewrite ?N.eqb_refl.
      destruct (Nat.leb_spec limit (length b)); [lia | reflexivity].
    - simpl. unfold parse_process_char, parse_add_char, is_quotechar. simpl.
      apply N.eqb_neq in Hc. rewrite Hc.
      destruct (Nat.leb_spec limit (length b)); [lia | reflexivity]. }
  rewrite Hstep. simpl bind. rewrite IH by (simpl; lia).
  simpl. rewrite <- app_assoc. reflexivity.
Qed.

Lemma quoted_field (f : str) (fs : list str) :
  length f <= limit ->
  parse_chars d limit (parser START_FIELD [] fs)
    ([q] ++ double_quotes q f ++ [q])
  = Ok (parser QUOTE_IN_QUOTED_FIELD (rev f) fs).
Proof.
  intros Hlen. simpl app. simpl parse_chars.
  unfold parse_process_char at 1. unfold is_quotechar. simpl.
  rewrite Hq_nl, N.eqb_refl. simpl. rewrite parse_chars_app.
  unfold set_state. cbn [p_field p_fields].
  rewrite quoted_body by (simpl; lia). simpl.
  unfold parse_process_char, is_quotechar. simpl. rewrite N.eqb_refl.
  rewrite app_nil_r. reflexivity.
Qed.

Lemma field_parse (f : str) (fs : list str) :
  length f <= limit ->
  exists p, parse_chars d limit (parser START_FIELD [] fs)
              (canonical_field dl q f) = Ok p
            /\ after_field p.
Proof.
  intros Hlen. unfold canonical_field.
  destruct (needs_quoting dl q f) eqn:E.
  - rewrite quoted_field by assumption. eexists. split; [reflexivity|].
    right. right. reflexivity.
  - destruct (@plain_start_field f fs (@needs_quoting_plain f E) Hlen) as [H|[b H]];
      rewrite H; eexists; (split; [reflexivity|]).
    + left. auto.
    + right. left. reflexivity.
Qed.

Lemma delimiter_after_field (p : Parser) :
  after_field p ->
  exists fs', parse_process_char d limit p (Some dl)
              = Ok (parser START_FIELD [] fs').
Proof.
  assert (Hdq : N.eqb dl q = false) by (apply N.eqb_neq; congruence).
  destruct p as [st b fs]. unfold after_field. simpl.
  intros [[-> ->]|[->| ->]]; unfold parse_process_char, is_quotechar; simpl;
    rewrite ?Hdl_nl, ?Hdq, ?N.eqb_refl; simpl; try (eexists; reflexivity).
  destruct (N.eqb dl SP && skip); eexists; reflexivity.
Qed.

Lemma line_end_after_field (p : Parser) :
  after_field p ->
  exists fs', parse_chars d limit p [CR; LF] = Ok (parser EAT_CRNL [] fs')
              /\ fs' <> [].
Proof.
  assert (Hcq : N.eqb CR q = false).
  { apply N.eqb_neq. intros <-. discriminate Hq_nl. }
  assert (Hcd : N.eqb CR dl = false).
  { apply N.eqb_neq. intros <-. discriminate Hdl_nl. }
  assert (Hcr : is_newline CR = true) by reflexivity.
  assert (Hlf : is_newline LF = true) by reflexivity.
  destruct p as [st b fs]. unfold after_field. cbn [p_state p_field].
  intros [[-> ->]|[->| ->]]; unfold parse_chars, parse_process_char, is_quotechar;
    cbn [p_state d_quotechar d_quoting d_delimiter];
    rewrite ?Hcq, ?Hcd, ?Hcr; cbn [bind set_state p_state];
    rewrite Hlf; cbn [bind];
    eexists; (split; [reflexivity | discriminate]).
Qed.

Lemma rest_parse (rest : list str) (p : Parser) :
  Forall (fun f => length f <= limit) rest ->
  after_field p ->
  exists fs',
    parse_chars d limit p
      (flat_map (fun x => dl :: x) (map (canonical_field dl q) rest) ++ [CR; LF])
    = Ok (parser EAT_CRNL [] fs')
    /\ fs' <> [].
Proof.
  revert p. induction rest as [|f rest IH]; intros p Hrest Hp.
  - apply line_end_after_field, Hp.
  - inversion Hrest as [|? ? Hf Hrest']; subst.
    destruct (@delimiter_after_field p Hp) as [fs1 H1].
    destruct (@field_parse f fs1 Hf) as (p2 & H2 & Hp2).
    destruct (IH p2 Hrest' Hp2) as (fs' & H3 & Hne).
    exists fs'. split; [|exact Hne].
    cbn [map flat_map]. rewrite <- app_assoc. cbn [app parse_chars].
    rewrite H1. simpl bind. rewrite parse_chars_app, H2. simpl bind. exact H3.
Qed.

Lemma start_record_as_start_field (s : str) :
  starts_inside s ->
  parse_chars d limit parse_reset s
  = parse_chars d limit (parser START_FIELD [] []) s.
Proof.
  destruct s as [|c s]; [contradiction|]. simpl. intros Hc.
  unfold parse_process_char, parse_reset. simpl. rewrite Hc. reflexivity.
Qed.

Lemma canonical_field_starts (f : str) :
  f <> [] -> starts_inside (canonical_field dl q f).
Proof.
  intros Hf. unfold canonical_field. destruct (needs_quoting dl q f) eqn:E.
  - exact Hq_nl.
  - destruct f as [|c f]; [congruence|].
    apply needs_quoting_plain in E. inversion E as [|? ? Hc _]; subst.
    apply plain_tests in Hc. simpl. tauto.
Qed.

Lemma starts_inside_app (a b : str) :
  starts_inside a -> starts_inside (a ++ b).
Proof. destruct a; [contradiction | auto]. Qed.

Lemma canonical_line_cons (f : str) (rest : list str) :
  f <> [] \/ rest <> [] ->
  canonical_line dl q (f :: rest)
  = canonical_field dl q f
    ++ flat_map (fun x => dl :: x) (map (canonical_field dl q) rest)
    ++ [CR; LF].
Proof.
  intros H. unfold canonical_line. rewrite app_assoc. f_equal.
  destruct f as [|c f], rest as [|f2 rest];
    try (cbn [map]; rewrite join_cons; reflexivity).
  destruct H; congruence.
Qed.

(** The parser goes through the canonical line of a record that is not
    empty without an error and saves at least one field. *)
Lemma canonical_line_parse (fields : list str) :
  fields <> [] ->
  Forall (fun f => length f <= limit) fields ->
  exists fs',
    parse_chars d limit parse_reset (canonical_line dl q fields)
    = Ok (parser EAT_CRNL [] fs')
    /\ fs' <> [].
Proof.
  intros Hne Hlen. destruct fields as [|f rest]; [congruence|].
  inversion Hlen as [|? ? Hf Hrest]; subst.
  destruct f as [|c f].
  - destruct rest as [|f2 rest].
    + change (canonical_line dl q [[]])
        with (([q] ++ double_quotes q [] ++ [q]) ++ [CR; LF]).
      rewrite start_record_as_start_field by exact Hq_nl.
      rewrite parse_chars_app, quoted_field by (simpl; lia). simpl bind.
      apply line_end_after_field. right. right. reflexivity.
    + rewrite canonical_line_cons by (right; discriminate).
      change (canonical_field dl q []) with (@nil char). cbn [app].
      rewrite start_record_as_start_field
        by (cbn [map flat_map app]; exact Hdl_nl).
      apply rest_parse; [assumption|]. left. auto.
  - rewrite canonical_line_cons by (left; discriminate).
    rewrite start_record_as_start_field
      by (apply starts_inside_app, canonical_field_starts; discriminate).
    destruct (@field_parse (c :: f) [] Hf) as (p & H & Hp).
    rewrite parse_chars_app, H. simpl bind. apply rest_parse; assumption.
Qed.

(** Splitting that line yields at least one field. *)
Lemma canonical_line_splits (fields : list str) :
  fields <> [] ->
  Forall (fun f => length f <= limit) fields ->
  exists row, split_line limit d (canonical_line dl q fields) = Ok row
              /\ 1 <= length row.
Proof.
  intros Hne Hlen.
  destruct (@canonical_line_parse fields Hne Hlen) as (fs' & H & Hfs).
  unfold split_line. rewrite iternext_single, H. simpl.
  exists (rev fs'). split; [reflexivity|].
  rewrite length_rev. destruct fs'; [congruence | simpl; lia].
Qed.

End Reparse.

(** ** Splitting the replacement line *)

(** With a quote character that [strip] removes, a line of quote characters
    alone is repaired into the bare line terminator, which splits into no
    field at all. *)
Lemma repaired_line_without_fields :
  let self := new_reader (lit "data.csv"%string) [COMMA] (Some [TAB]) false 0 in
  let d := {| d_delimiter := COMMA; d_quotechar := Some TAB;
              d_quoting := QUOTE_MINIMAL; d_strict := false;
              d_skipinitialspace := true |} in
  takes_repair_path self [TAB] = true
  /\ NoMultilineQuotedReader_process DEFAULT_FIELD_LIMIT self [TAB]
     = Ok [CR; LF]
  /\ repair_dialect self = Ok d
  /\ split_line DEFAULT_FIELD_LIMIT d [CR; LF] = Ok [].
Proof. cbv zeta. repeat split; vm_compute; reflexivity. Qed.

(** With a line break as the delimiter the replacement line cannot be
    split: the two quoted fields of [QaQ LF QbQ] are written without
    quotes around the delimiter, which the parser then takes for the end
    of the line. *)
Lemma repaired_line_newline_delimiter :
  let self := new_reader (lit "data.csv"%string) [LF] (Some [DQUOTE]) false 0 in
  let d := {| d_delimiter := LF; d_quotechar := Some DQUOTE;
              d_quoting := QUOTE_MINIMAL; d_strict := false;
              d_skipinitialspace := true |} in
  let line := [DQUOTE] ++ lit "a"%string ++ [DQUOTE; LF; DQUOTE]
              ++ lit "b"%string ++ [DQUOTE] in
  NoMultilineQuotedReader_process DEFAULT_FIELD_LIMIT self line
  = Ok (lit "a"%string ++ [LF] ++ lit "b"%string ++ [CR; LF])
  /\ repair_dialect self = Ok d
  /\ split_line DEFAULT_FIELD_LIMIT d
       (lit "a"%string ++ [LF] ++ lit "b"%string ++ [CR; LF])
     = Raise (CsvError NewlineInUnquotedField).
Proof. cbv zeta. repeat split; vm_compute; reflexivity. Qed.

(** With the delimiter as the quote character a field of the replacement
    line can grow beyond the field size limit (here 4, set with
    [csv.field_size_limit]). *)
Lemma repaired_line_quote_is_delimiter :
  let self := new_reader (lit "data.csv"%string) [COMMA] (Some [COMMA]) false 0 in
  let d := {| d_delimiter := COMMA; d_quotechar := Some COMMA;
              d_quoting := QUOTE_MINIMAL; d_strict := false;
              d_skipinitialspace := true |} in
  let line := [COMMA; CR; COMMA] ++ lit "a"%string ++ [COMMA] in
  exists out,
    NoMultilineQuotedReader_process 4 self line = Ok out
    /\ repair_dialect self = Ok d
    /\ split_line 4 d out = Raise (CsvError FieldLargerThanLimit).
Proof. cbv zeta. eexists. repeat split; vm_compute; reflexivity. Qed.

(** C7 (amended): when the quote character is not a character [strip]
    removes, is not the delimiter, and the delimiter is not a line break,
    the replacement line of every repaired line splits, under the dialect
    of the reader, without an error into at least one field. *)
Theorem repaired_line_splits (limit : nat) (self : Reader) (line out : str)
    (d : Dialect) (q : char) :
  takes_repair_path self line = true ->
  NoMultilineQuotedReader_process limit self line = Ok out ->
  repair_dialect self = Ok d ->
  d_quotechar d = Some q ->
  isspace q = false ->
  q <> d_delimiter d ->
  is_newline (d_delimiter d) = false ->
  exists fields, split_line limit d out = Ok fields /\ 1 <= length fields.
Proof.
  intros Hpath Hout Hd Hq Hsp Hqd Hnl.
  destruct (repair_path_dialect self line Hpath Hd)
    as (dl & q' & Hdl & Hquote & Ed).
  assert (q' = q) by (subst d; simpl in Hq; congruence). subst q'.
  assert (Edl : d_delimiter d = dl) by (subst d; reflexivity).
  rewrite Edl in Hqd, Hnl.
  rewrite process_paths in Hout. cbv zeta in Hout. rewrite Hpath, Hd in Hout.
  simpl in Hout.
  destruct (parse_single_line limit d _) as [fields|] eqn:Hp; [|discriminate].
  simpl in Hout.
  rewrite (@writerow_canonical d q) in Hout by (subst d; reflexivity).
  injection Hout as <-. rewrite Edl.
  unfold parse_single_line in Hp.
  pose proof (@fields_within_limit _ _ _ _ Hp) as Hlen.
  assert (Hne : fields <> []).
  { pose proof (repair_path_quote_In self line Hpath Hquote) as Hin.
    apply (@strip_keeps q _ Hsp) in Hin.
    destruct (strip (str_replace_char NUL SP line)) as [|c rest] eqn:Es;
      [contradiction|].
    apply (@iternext_nonempty d limit c rest fields); [|exact Hp].
    apply isspace_newline. exact (@strip_head _ _ _ Es). }
  subst d.
  exact (@canonical_line_splits dl q (strict_delimitation self) true limit
           Hqd (@isspace_newline q Hsp) Hnl fields Hne Hlen).
Qed.

Lemma repaired_line_splits_witness :
  exists fields,
    split_line DEFAULT_FIELD_LIMIT
      {| d_delimiter := COMMA; d_quotechar := Some DQUOTE;
         d_quoting := QUOTE_MINIMAL; d_strict := false;
         d_skipinitialspace := true |}
      (lit "a,"%string ++ [DQUOTE] ++ lit "b"%string ++ [DQUOTE; DQUOTE]
       ++ lit "c"%string ++ [DQUOTE] ++ lit ",d"%string ++ [CR; LF])
    = Ok fields
    /\ 1 <= length fields.
Proof.
  apply (repaired_line_splits DEFAULT_FIELD_LIMIT comma_reader
           (lit "a,b"%string ++ [DQUOTE] ++ lit "c,d"%string)
           (q := DQUOTE)).
  - reflexivity.
  - vm_compute. reflexivity.
  - reflexivity.
  - reflexivity.
  - reflexivity.
  - discriminate.
  - reflexivity.
Defined.

(** ** Counts by position *)

Lemma count_from_cons (sub : str) (c : char) (t : str) :
  count_from sub 0 (c :: t)
  = if startswith sub (c :: t) then S (count_from sub (length sub - 1) t)
    else count_from sub 0 t.
Proof. reflexivity. Qed.

Lemma count_from_skip (sub : str) (k : nat) (c : char) (t : str) :
  count_from sub (S k) (c :: t) = count_from sub k t.
Proof. reflexivity. Qed.

Lemma occurrences_cons (sub : str) (c : char) (t : str) :
  occurrences sub (c :: t)
  = (if startswith sub (c :: t) then 1 else 0) + occurrences sub t.
Proof. reflexivity. Qed.

Lemma count_one (x : char) (s : str) :
  count_from [x] 0 s = occurrences [x] s.
Proof.
  induction s as [|c s IH]; [reflexivity|].
  rewrite count_from_cons, occurrences_cons.
  destruct (startswith [x] (c :: s)); cbn [length Nat.sub]; rewrite IH;
    reflexivity.
Qed.

Lemma count_two_bounded (x y : char) (n : nat) (s : str) :
  x <> y -> length s <= n ->
  count_from [x; y] 0 s = occurrences [x; y] s.
Proof.
  intros Hxy. revert s. induction n as [|n IH]; intros s Hlen.
  - destruct s; [reflexivity | simpl in Hlen; lia].
  - destruct s as [|c [|c2 t]]; [reflexivity | |].
    + simpl. rewrite andb_false_r. reflexivity.
    + rewrite count_from_cons, occurrences_cons. simpl in Hlen.
      destruct (startswith [x; y] (c :: c2 :: t)) eqn:E.
      * simpl in E. apply andb_true_iff in E as [_ E].
        apply andb_true_iff in E as [E _]. apply N.eqb_eq in E. subst c2.
        assert (Hyx : N.eqb x y = false) by (apply N.eqb_neq; exact Hxy).
        cbn [length Nat.sub]. rewrite count_from_skip, occurrences_cons.
        cbn [startswith]. rewrite Hyx. cbn [andb Nat.add].
        rewrite (IH t) by lia. reflexivity.
      * rewrite (IH (c2 :: t)) by (simpl; lia). reflexivity.
Qed.

Lemma count_two (x y : char) (s : str) :
  x <> y -> count_from [x; y] 0 s = occurrences [x; y] s.
Proof. intros H. apply count_two_bounded with (n := length s); auto. Qed.

Lemma count_three_bounded (x y z : char) (n : nat) (s : str) :
  x <> y -> x <> z -> length s <= n ->
  count_from [x; y; z] 0 s = occurrences [x; y; z] s.
Proof.
  intros Hxy Hxz. revert s. induction n as [|n IH]; intros s Hlen.
  - destruct s; [reflexivity | simpl in Hlen; lia].
  - destruct s as [|c [|c2 [|c3 t]]]; [reflexivity | | |].
    + simpl. rewrite andb_false_r. reflexivity.
    + simpl. rewrite !andb_false_r. reflexivity.
    + rewrite count_from_cons, occurrences_cons. simpl in Hlen.
      destruct (startswith [x; y; z] (c :: c2 :: c3 :: t)) eqn:E.
      * simpl in E. apply andb_true_iff in E as [_ E].
        apply andb_true_iff in E as [E2 E].
        apply andb_true_iff in E as [E3 _].
        apply N.eqb_eq in E2, E3. subst c2 c3.
        assert (Hy : N.eqb x y = false) by (apply N.eqb_neq; exact Hxy).
        assert (Hz : N.eqb x z = false) by (apply N.eqb_neq; exact Hxz).
        cbn [length Nat.sub]. rewrite !count_from_skip, !occurrences_cons.
        cbn [startswith]. rewrite Hy, Hz. cbn [andb Nat.add].
        rewrite (IH t) by lia. reflexivity.
      * rewrite (IH (c2 :: c3 :: t)) by (simpl; lia). reflexivity.
Qed.

Lemma count_three (x y z : char) (s : str) :
  x <> y -> x <> z -> count_from [x; y; z] 0 s = occurrences [x; y; z] s.
Proof. intros Hy Hz. apply count_three_bounded with (n := length s); auto. Qed.

(** The pairs of quote and delimiter and the escaped quotes together are
    at most the quotes and the escaped pairs together. *)
Lemma occurrences_bound (q dl b : char) (s : str) :
  occurrences [q; dl] s + occurrences [b; q] s + head_quote_open q dl s
  <= occurrences [q] s + occurrences [b; q; dl] s.
Proof.
  induction s as [|c t IH]; [simpl; lia|].
  rewrite !occurrences_cons.
  destruct t as [|c2 [|c3 t3]]; cbn [startswith head_quote_open] in *;
    split_tests; try lia; try congruence.
Qed.

Lemma occurrences_escaped (q : char) (prev : option char) (s : str) :
  escaped_from q prev s = true ->
  occurrences [q] s
  = occurrences [BACKSLASH; q] s
    + match s with c :: _ => if N.eqb c q then 1 else 0 | [] => 0 end.
Proof.
  revert prev. induction s as [|c t IH]; intros prev H; [reflexivity|].
  cbn [escaped_from] in H. apply andb_true_iff in H as [_ H].
  rewrite !occurrences_cons. rewrite (IH (Some c) H).
  destruct t as [|c2 t2]; cbn [startswith escaped_from] in *;
    split_tests; try lia; try congruence; try discriminate.
Qed.

Lemma occurrences_before_delimiter (q dl : char) (s : str) :
  all_quotes_before_delimiter q dl s = true ->
  occurrences [q; dl] s = occurrences [q] s.
Proof.
  induction s as [|c t IH]; intros H; [reflexivity|].
  cbn [all_quotes_before_delimiter] in H. apply andb_true_iff in H as [Hc H].
  rewrite !occurrences_cons, (IH H).
  destruct t as [|c2 t2]; cbn [startswith] in *;
    split_tests; try lia; try congruence; try discriminate.
Qed.

Lemma escaped_backslash_none (prev : option char) (s : str) :
  escaped_from BACKSLASH prev s = true ->
  prev <> Some BACKSLASH ->
  occurrences [BACKSLASH] s = 0.
Proof.
  revert prev. induction s as [|c t IH]; intros prev H Hprev; [reflexivity|].
  cbn [escaped_from] in H. apply andb_true_iff in H as [Hc H].
  rewrite occurrences_cons. cbn [startswith].
  assert (Hcb : c <> BACKSLASH).
  { intros ->. destruct prev as [x|]; [|discriminate Hc].
    simpl in Hc. apply N.eqb_eq in Hc. congruence. }
  rewrite (IH (Some c) H) by congruence.
  destruct (N.eqb_spec BACKSLASH c); [congruence | reflexivity].
Qed.

Lemma before_itself_none (q : char) (s : str) :
  all_quotes_before_delimiter q q s = true -> occurrences [q] s = 0.
Proof.
  induction s as [|c t IH]; intros H; [reflexivity|].
  cbn [all_quotes_before_delimiter] in H. apply andb_true_iff in H as [Hc H].
  specialize (IH H). rewrite occurrences_cons, IH.
  destruct t as [|c2 t2]; cbn [startswith] in *; split_tests;
    try reflexivity; try discriminate; try congruence.
  rewrite occurrences_cons in IH. cbn [startswith] in IH.
  rewrite N.eqb_refl in IH. discriminate IH.
Qed.

Lemma all_quotes_escaped_counts (q : char) (s : str) :
  all_quotes_escaped q s = true ->
  str_count s [BACKSLASH; q] = str_count s [q].
Proof.
  unfold all_quotes_escaped, str_count. intros H. f_equal.
  rewrite count_one.
  destruct (N.eq_dec q BACKSLASH) as [->|Hq].
  - rewrite (@escaped_backslash_none None s H) by discriminate.
    pose proof (@count_from_contains [BACKSLASH; BACKSLASH] s 0) as Hc.
    destruct (count_from [BACKSLASH; BACKSLASH] 0 s) as [|n]; [reflexivity|].
    assert (Hin : str_contains s [BACKSLASH] = true).
    { apply (@str_contains_app s [BACKSLASH] [BACKSLASH]). apply Hc. lia. }
    apply contains_count_from in Hin; [|discriminate].
    rewrite count_one, (@escaped_backslash_none None s H) in Hin by discriminate.
    lia.
  - rewrite count_two by congruence.
    rewrite (@occurrences_escaped q None s H).
    destruct s as [|c t]; [reflexivity|].
    cbn [escaped_from] in H. apply andb_true_iff in H as [Hc _].
    rewrite orb_false_r in Hc. apply negb_true_iff in Hc. rewrite Hc. lia.
Qed.

Lemma all_quotes_before_delimiter_counts (q dl : char) (s : str) :
  all_quotes_before_delimiter q dl s = true ->
  str_count s [q; dl] = str_count s [q].
Proof.
  unfold str_count. intros H. f_equal. rewrite count_one.
  destruct (N.eq_dec q dl) as [<-|Hq].
  - rewrite (@before_itself_none q s H).
    pose proof (@count_from_contains [q; q] s 0) as Hc.
    destruct (count_from [q; q] 0 s) as [|n]; [reflexivity|].
    assert (Hin : str_contains s [q] = true).
    { apply (@str_contains_app s [q] [q]). apply Hc. lia. }
    apply contains_count_from in Hin; [|discriminate].
    rewrite count_one, (@before_itself_none q s H) in Hin. lia.
  - rewrite count_two by assumption.
    apply occurrences_before_delimiter, H.
Qed.

(** The decision of lines 207-234 in three counts. *)
Lemma repair_path_three_counts (self : Reader) (q dl : char) (line : str) :
  quote_char self = Some [q] -> delimiter self = [dl] ->
  q <> BACKSLASH -> q <> dl -> dl <> BACKSLASH ->
  let line' := str_replace_char NUL SP line in
  let count := str_count line' [q] in
  let escaped := str_count line' [BACKSLASH; q] in
  let pairs := str_count line' [q; dl] in
  takes_repair_path self line
  = negb ((count =? 0)%Z || (escaped =? count)%Z
          || ((escaped =? 0)%Z && (pairs =? count)%Z)).
Proof.
  intros Hq Hdl Hqb Hqd Hdb nl count escaped pairs.
  unfold takes_repair_path, all_quotes_safe. rewrite Hq, Hdl. fold nl.
  change ([q] ++ [dl]) with [q; dl].
  change ([BACKSLASH] ++ [q]) with [BACKSLASH; q].
  change ([BACKSLASH] ++ [q; dl]) with [BACKSLASH; q; dl].
  fold count escaped pairs.
  pose proof (occurrences_bound q dl BACKSLASH nl) as Hbound.
  assert (Hcount : count = Z.of_nat (occurrences [q] nl))
    by (unfold count, str_count; rewrite count_one; reflexivity).
  assert (Hesc : escaped = Z.of_nat (occurrences [BACKSLASH; q] nl))
    by (unfold escaped, str_count; rewrite count_two by congruence; reflexivity).
  assert (Hpairs : pairs = Z.of_nat (occurrences [q; dl] nl))
    by (unfold pairs, str_count; rewrite count_two by congruence; reflexivity).
  assert (Htri : str_count nl [BACKSLASH; q; dl]
                 = Z.of_nat (occurrences [BACKSLASH; q; dl] nl))
    by (unfold str_count; rewrite count_three by congruence; reflexivity).
  assert (Hzero : escaped = 0%Z -> str_count nl [BACKSLASH; q; dl] = 0%Z).
  { intros H0.
    destruct (str_contains nl ([BACKSLASH] ++ [q])) eqn:Em.
    - apply str_count_pos_iff in Em; [|discriminate].
      change ([BACKSLASH] ++ [q]) with [BACKSLASH; q] in Em.
      fold escaped in Em. lia.
    - apply (@no_marker_no_escaped [q] [dl] nl Em). }
  destruct (str_contains nl [BACKSLASH]) eqn:Eb; cbn [negb].
  - destruct (Z.eqb_spec count 0), (Z.eqb_spec escaped count),
      (Z.eqb_spec escaped 0), (Z.eqb_spec pairs count);
      cbn [negb andb orb]; try reflexivity;
      destruct (Z.eqb_spec (pairs - str_count nl [BACKSLASH; q; dl]) count);
      try reflexivity; lia.
  - assert (H0 : escaped = 0%Z).
    { apply str_count_zero; [discriminate|].
      apply (@marker_needs_backslash [q] nl Eb). }
    destruct (Z.eqb_spec count 0), (Z.eqb_spec escaped count),
      (Z.eqb_spec escaped 0), (Z.eqb_spec pairs count);
      cbn [negb andb orb]; try reflexivity; lia.
Qed.

Lemma startswith_contains (sub s : str) :
  startswith sub s = true -> str_contains s sub = true.
Proof. intros H. destruct s; simpl; rewrite H; reflexivity. Qed.

Lemma str_contains_tail (s : str) (a : char) (sub : str) :
  str_contains s (a :: sub) = true -> str_contains s sub = true.
Proof.
  induction s as [|c t IH]; intros H.
  - cbn [str_contains startswith] in H. discriminate H.
  - cbn [str_contains] in H. apply orb_true_iff in H as [H|H].
    + cbn [startswith] in H. apply andb_true_iff in H as [_ H].
      cbn [str_contains]. rewrite (startswith_contains _ _ H).
      apply orb_true_r.
    + cbn [str_contains]. rewrite (IH H). apply orb_true_r.
Qed.

(** ** Lines the filter leaves alone, lines it always repairs *)

(** X1: a line that holds no quote character once its NUL characters are
    replaced by spaces is returned as that substituted line, whatever else
    it holds. *)
Theorem line_without_quote_passes (limit : nat) (self : Reader)
    (quote line : str) :
  quote_char self = Some quote ->
  str_contains (str_replace_char NUL SP line) quote = false ->
  NoMultilineQuotedReader_process limit self line
  = Ok (str_replace_char NUL SP line).
Proof.
  intros Hq Hno. apply process_pass_through. unfold takes_repair_path.
  rewrite Hq. destruct quote as [|q quote]; [reflexivity|].
  rewrite (@str_count_zero _ (q :: quote)) by (discriminate || assumption).
  reflexivity.
Qed.

Lemma line_without_quote_passes_witness :
  NoMultilineQuotedReader_process DEFAULT_FIELD_LIMIT comma_reader
    (lit "a\,b"%string ++ [NUL] ++ lit ",c "%string)
  = Ok (lit "a\,b ,c "%string).
Proof.
  apply (@line_without_quote_passes DEFAULT_FIELD_LIMIT comma_reader [DQUOTE]
           (lit "a\,b"%string ++ [NUL] ++ lit ",c "%string));
    reflexivity.
Defined.

(** X2: a line in which, once its NUL characters are replaced by spaces,
    every quote character comes right after a backslash is returned as
    that substituted line. *)
Theorem escaped_quotes_pass (limit : nat) (self : Reader) (q : char)
    (line : str) :
  quote_char self = Some [q] ->
  all_quotes_escaped q (str_replace_char NUL SP line) = true ->
  NoMultilineQuotedReader_process limit self line
  = Ok (str_replace_char NUL SP line).
Proof.
  intros Hq Hall. apply process_pass_through. unfold takes_repair_path.
  rewrite Hq. set (nl := str_replace_char NUL SP line) in *.
  pose proof (all_quotes_escaped_counts q nl Hall) as Hcounts.
  destruct (Z.eqb_spec (str_count nl [q]) 0) as [|Hne]; [reflexivity|].
  cbn [negb andb]. apply negb_false_iff. unfold all_quotes_safe.
  change ([BACKSLASH] ++ [q]) with [BACKSLASH; q]. rewrite Hcounts.
  assert (Hb : str_contains nl [BACKSLASH] = true).
  { apply (@str_contains_app nl [BACKSLASH] [q]).
    apply str_count_pos_iff; [discriminate|].
    change ([BACKSLASH] ++ [q]) with [BACKSLASH; q]. rewrite Hcounts.
    pose proof (str_count_nonneg nl [q]). lia. }
  rewrite Hb, Z.eqb_refl. reflexivity.
Qed.

Lemma escaped_quotes_pass_witness :
  NoMultilineQuotedReader_process DEFAULT_FIELD_LIMIT comma_reader
    (lit "a\"%string ++ [DQUOTE] ++ lit "b,\"%string ++ [DQUOTE]
     ++ lit "c\"%string ++ [DQUOTE])
  = Ok (lit "a\"%string ++ [DQUOTE] ++ lit "b,\"%string ++ [DQUOTE]
        ++ lit "c\"%string ++ [DQUOTE]).
Proof.
  apply (@escaped_quotes_pass DEFAULT_FIELD_LIMIT comma_reader DQUOTE
           (lit "a\"%string ++ [DQUOTE] ++ lit "b,\"%string ++ [DQUOTE]
            ++ lit "c\"%string ++ [DQUOTE]));
    reflexivity.
Defined.

(** X3: a line that, once its NUL characters are replaced by spaces, has
    no quote character right after a backslash and has the delimiter
    right after every quote character is returned as that substituted
    line, with or without backslashes elsewhere in it. *)
Theorem quotes_before_delimiter_pass (limit : nat) (self : Reader)
    (q dl : char) (line : str) :
  quote_char self = Some [q] ->
  delimiter self = [dl] ->
  str_contains (str_replace_char NUL SP line) [BACKSLASH; q] = false ->
  all_quotes_before_delimiter q dl (str_replace_char NUL SP line) = true ->
  NoMultilineQuotedReader_process limit self line
  = Ok (str_replace_char NUL SP line).
Proof.
  intros Hq Hdl Hno Hall. apply process_pass_through. unfold takes_repair_path.
  rewrite Hq, Hdl. set (nl := str_replace_char NUL SP line) in *.
  pose proof (all_quotes_before_delimiter_counts q dl nl Hall) as Hcounts.
  destruct (Z.eqb_spec (str_count nl [q]) 0) as [|Hne]; [reflexivity|].
  cbn [negb andb]. apply negb_false_iff. unfold all_quotes_safe.
  destruct (@no_marker_no_escaped [q] [dl] nl Hno) as [He Ht].
  rewrite He, Ht. change ([q] ++ [dl]) with [q; dl].
  rewrite Hcounts, Z.sub_0_r.
  rewrite Z.eqb_refl.
  destruct (negb (str_contains nl [BACKSLASH])); [reflexivity|].
  destruct (0 =? str_count nl [q])%Z; reflexivity.
Qed.

Lemma quotes_before_delimiter_pass_witness :
  NoMultilineQuotedReader_process DEFAULT_FIELD_LIMIT comma_reader
    (lit "a\b"%string ++ [DQUOTE] ++ lit ",c"%string ++ [DQUOTE]
     ++ lit ",d"%string)
  = Ok (lit "a\b"%string ++ [DQUOTE] ++ lit ",c"%string ++ [DQUOTE]
        ++ lit ",d"%string).
Proof.
  apply (@quotes_before_delimiter_pass DEFAULT_FIELD_LIMIT comma_reader
           DQUOTE COMMA
           (lit "a\b"%string ++ [DQUOTE] ++ lit ",c"%string ++ [DQUOTE]
            ++ lit ",d"%string));
    reflexivity.
Defined.



(** X5: a line with an escaped quote and a quote that is not escaped is
    never returned as it is: wherever its other quotes stand, it is
    parsed and rewritten. *)
Theorem partly_escaped_line_is_repaired (limit : nat) (self : Reader)
    (q dl : char) (line : str) :
  quote_char self = Some [q] -> delimiter self = [dl] ->
  q <> BACKSLASH -> q <> dl -> dl <> BACKSLASH ->
  let line' := str_replace_char NUL SP line in
  (1 <= str_count line' [BACKSLASH; q])%Z ->
  str_count line' [BACKSLASH; q] <> str_count line' [q] ->
  takes_repair_path self line = true
  /\ NoMultilineQuotedReader_process limit self line
     = (d <- repair_dialect self ;;
        parsed_line <- parse_single_line limit d line' ;;
        writerow d parsed_line).
Proof.
  intros Hq Hdl Hqb Hqd Hdb nl H1 Hne.
  assert (Hpath : takes_repair_path self line = true).
  { rewrite (repair_path_three_counts self line Hq Hdl Hqb Hqd Hdb).
    cbv zeta. fold nl.
    assert (Hmarker : str_contains nl [BACKSLASH; q] = true)
      by (apply str_count_pos_iff; [discriminate | lia]).
    assert (Hquote : str_contains nl [q] = true)
      by exact (@str_contains_tail nl BACKSLASH [q] Hmarker).
    apply str_count_pos_iff in Hquote; [|discriminate].
    destruct (Z.eqb_spec (str_count nl [q]) 0); [lia|].
    destruct (Z.eqb_spec (str_count nl [BACKSLASH; q]) (str_count nl [q]));
      [contradiction|].
    destruct (Z.eqb_spec (str_count nl [BACKSLASH; q]) 0); [lia|].
    reflexivity. }
  split; [exact Hpath|]. rewrite process_paths. cbv zeta. rewrite Hpath.
  reflexivity.
Qed.

Lemma partly_escaped_line_is_repaired_witness :
  takes_repair_path comma_reader
    (lit "a\"%string ++ [DQUOTE] ++ lit ",b"%string ++ [DQUOTE]
     ++ lit ",c"%string)
  = true.
Proof.
  refine (proj1 (@partly_escaped_line_is_repaired DEFAULT_FIELD_LIMIT
                   comma_reader DQUOTE COMMA
                   (lit "a\"%string ++ [DQUOTE] ++ lit ",b"%string
                    ++ [DQUOTE] ++ lit ",c"%string)
                   _ _ _ _ _ _ _));
    try reflexivity; try discriminate.
Defined.

(** X6: whatever the path, a line the filter returns holds no NUL. *)
Theorem processed_line_has_no_nul (limit : nat) (self : Reader)
    (line out : str) :
  NoMultilineQuotedReader_process limit self line = Ok out ->
  ~ In NUL out.
Proof.
  intros Hout. destruct (takes_repair_path self line) eqn:Hpath.
  - exact (repaired_line_no_nul limit self line Hpath Hout).
  - rewrite (process_pass_through limit self line Hpath) in Hout.
    injection Hout as <-. apply replace_nul_no_nul.
Qed.

Lemma processed_line_has_no_nul_witness :
  ~ In NUL (lit "a,"%string ++ [DQUOTE] ++ lit "b c"%string
            ++ [DQUOTE; DQUOTE; DQUOTE; CR; LF]).
Proof.
  apply (@processed_line_has_no_nul DEFAULT_FIELD_LIMIT comma_reader
           (lit "a,b"%string ++ [NUL] ++ lit "c"%string ++ [DQUOTE])).
  vm_compute. reflexivity.
Defined.

(** ** The canonical line read back *)

Section RoundTrip.

Variables dl q : char.
Variable strict : bool.
Variable limit : nat.
Hypothesis Hqd : q <> dl.
Hypothesis Hq_nl : is_newline q = false.
Hypothesis Hdl_nl : is_newline dl = false.
Hypothesis Hdl_sp : dl <> SP.

Local Abbreviation d :=
  {| d_delimiter := dl; d_quotechar := Some q; d_quoting := QUOTE_MINIMAL;
     d_strict := strict; d_skipinitialspace := true |}.

Local Abbreviation parser st b fs :=
  {| p_state := st; p_field := b; p_fields := fs |}.

Lemma plain_field_exact (f : str) (fs : list str) :
  Forall (plain dl q) f -> length f <= limit ->
  match f with c :: _ => c <> SP | [] => True end ->
  parse_chars d limit (parser START_FIELD [] fs) f
  = Ok (match f with
        | [] => parser START_FIELD [] fs
        | _ :: _ => parser IN_FIELD (rev f) fs
        end).
Proof.
  destruct f as [|c g]; intros Hf Hlen Hc; [reflexivity|].
  inversion Hf as [|? ? Hpc Hg]; subst.
  destruct (@plain_tests dl q c Hpc) as (Hd & Hq & Hn).
  apply N.eqb_neq in Hc. simpl in Hlen.
  cbn [parse_chars]. unfold parse_process_char, parse_add_char, is_quotechar.
  cbn [p_state p_field p_fields d_quotechar d_quoting d_delimiter
       d_skipinitialspace length].
  rewrite Hn, Hq, Hc, Hd. cbn [andb].
  destruct (Nat.leb_spec limit 0); [lia|]. cbn [bind]. unfold set_state.
  cbn [p_state p_field p_fields].
  rewrite (@plain_in_field dl q strict true limit Hqd g [c] fs Hg)
    by (simpl; lia).
  reflexivity.
Qed.

Lemma field_exact (f : str) (fs : list str) :
  length f <= limit -> keeps_its_start dl q f = true ->
  exists p, parse_chars d limit (parser START_FIELD [] fs)
              (canonical_field dl q f) = Ok p
            /\ field_done f fs p.
Proof.
  intros Hlen Hk. unfold canonical_field, keeps_its_start in *.
  destruct (needs_quoting dl q f) eqn:E.
  - rewrite (@quoted_field dl q strict true limit Hqd Hq_nl f fs Hlen).
    eexists. split; [reflexivity|]. split; [reflexivity|]. right. right. auto.
  - cbn [orb] in Hk.
    rewrite (@plain_field_exact f fs (@needs_quoting_plain dl q f E) Hlen).
    + eexists. split; [reflexivity|]. destruct f as [|c g].
      * split; [reflexivity|]. left. auto.
      * split; [reflexivity|]. right. left. auto.
    + destruct f as [|c g]; [exact I|].
      apply negb_true_iff, N.eqb_neq in Hk. exact Hk.
Qed.

Lemma delimiter_exact (f : str) (fs : list str) (p : Parser) :
  field_done f fs p ->
  parse_process_char d limit p (Some dl) = Ok (parser START_FIELD [] (f :: fs)).
Proof.
  assert (Hdq : N.eqb dl q = false) by (apply N.eqb_neq; congruence).
  assert (Hsp : N.eqb dl SP = false) by (apply N.eqb_neq; congruence).
  destruct p as [st b fs']. unfold field_done. cbn [p_state p_field p_fields].
  intros [-> [(-> & -> & ->)|[[-> ->]|[-> ->]]]];
    unfold parse_process_char, is_quotechar, parse_save_field, set_state;
    cbn [p_state p_field p_fields d_quotechar d_quoting d_delimiter
         d_skipinitialspace];
    rewrite ?Hdl_nl, ?Hdq, ?Hsp, ?N.eqb_refl, ?rev_involutive; reflexivity.
Qed.

Lemma line_end_exact (f : str) (fs : list str) (p : Parser) :
  field_done f fs p ->
  parse_chars d limit p [CR; LF] = Ok (parser EAT_CRNL [] (f :: fs)).
Proof.
  assert (Hcq : N.eqb CR q = false).
  { apply N.eqb_neq. intros <-. discriminate Hq_nl. }
  assert (Hcd : N.eqb CR dl = false).
  { apply N.eqb_neq. intros <-. discriminate Hdl_nl. }
  assert (Hcr : is_newline CR = true) by reflexivity.
  assert (Hlf : is_newline LF = true) by reflexivity.
  destruct p as [st b fs']. unfold field_done. cbn [p_state p_field p_fields].
  intros [-> [(-> & -> & ->)|[[-> ->]|[-> ->]]]];
    unfold parse_chars, parse_process_char, is_quotechar, parse_save_field,
      set_state;
    cbn [p_state p_field p_fields d_quotechar d_quoting d_delimiter];
    rewrite ?Hcq, ?Hcd, ?Hcr; cbn [bind p_state p_field p_fields];
    rewrite Hlf, ?rev_involutive; reflexivity.
Qed.

Lemma rest_exact (rest : list str) (f : str) (fs : list str) (p : Parser) :
  Forall (fun f => length f <= limit /\ keeps_its_start dl q f = true) rest ->
  field_done f fs p ->
  parse_chars d limit p
    (flat_map (fun x => dl :: x) (map (canonical_field dl q) rest) ++ [CR; LF])
  = Ok (parser EAT_CRNL [] (rev rest ++ f :: fs)).
Proof.
  revert f fs p. induction rest as [|g rest IH]; intros f fs p Hrest Hp.
  - apply line_end_exact, Hp.
  - inversion Hrest as [|? ? [Hlen Hk] Hrest']; subst.
    destruct (@field_exact g (f :: fs) Hlen Hk) as (p2 & H2 & Hp2).
    cbn [map flat_map]. rewrite <- app_assoc. cbn [app parse_chars].
    rewrite (delimiter_exact Hp). cbn [bind].
    rewrite parse_chars_app, H2. cbn [bind].
    rewrite (IH g (f :: fs) p2 Hrest' Hp2).
    cbn [rev]. rewrite <- app_assoc. reflexivity.
Qed.

Lemma canonical_line_parse_exact (fields : list str) :
  Forall (fun f => length f <= limit /\ keeps_its_start dl q f = true) fields ->
  parse_chars d limit parse_reset (canonical_line dl q fields)
  = Ok (parser EAT_CRNL [] (rev fields)).
Proof.
  intros Hall. destruct fields as [|f rest]; [reflexivity|].
  inversion Hall as [|? ? [Hlen Hk] Hrest]; subst.
  destruct f as [|c f].
  - destruct rest as [|f2 rest].
    + change (canonical_line dl q [[]])
        with (([q] ++ double_quotes q [] ++ [q]) ++ [CR; LF]).
      rewrite (@start_record_as_start_field dl q strict true limit) by exact Hq_nl.
      rewrite parse_chars_app.
      rewrite (@quoted_field dl q strict true limit Hqd Hq_nl [] []) by (simpl; lia).
      cbn [bind]. apply line_end_exact. split; [reflexivity|]. right. right. auto.
    + rewrite canonical_line_cons by (right; discriminate).
      change (canonical_field dl q []) with (@nil char). cbn [app].
      rewrite (@start_record_as_start_field dl q strict true limit)
        by (cbn [map flat_map app]; exact Hdl_nl).
      rewrite (@rest_exact (f2 :: rest) [] [] (parser START_FIELD [] []) Hrest).
      * reflexivity.
      * split; [reflexivity|]. left. auto.
  - rewrite canonical_line_cons by (left; discriminate).
    rewrite (@start_record_as_start_field dl q strict true limit)
      by (apply starts_inside_app;
          apply (@canonical_field_starts dl q Hq_nl); discriminate).
    destruct (@field_exact (c :: f) [] Hlen Hk) as (p & H & Hp).
    rewrite parse_chars_app, H. cbn [bind].
    rewrite (@rest_exact rest (c :: f) [] p Hrest Hp). reflexivity.
Qed.

(** Splitting the canonical line of fields gives the fields back. *)
Lemma canonical_line_round_trip (fields : list str) :
  Forall (fun f => length f <= limit /\ keeps_its_start dl q f = true) fields ->
  split_line limit d (canonical_line dl q fields) = Ok fields.
Proof.
  intros Hall. unfold split_line.
  rewrite iternext_single, (canonical_line_parse_exact Hall).
  cbn. rewrite rev_involutive. reflexivity.
Qed.

End RoundTrip.

(** X7: when the quote character, the delimiter, the line breaks and the
    space are different characters and none of the fields parsed from a
    repaired line starts with a space unless it needs quotes, the
    replacement line splits into exactly those fields. *)
Theorem repaired_line_splits_into_parsed_fields (limit : nat) (self : Reader)
    (line : str) (d : Dialect) (q : char) (fields : list str) :
  takes_repair_path self line = true ->
  repair_dialect self = Ok d ->
  d_quotechar d = Some q ->
  q <> d_delimiter d ->
  is_newline q = false ->
  is_newline (d_delimiter d) = false ->
  d_delimiter d <> SP ->
  parse_single_line limit d (str_replace_char NUL SP line) = Ok fields ->
  Forall (fun f => keeps_its_start (d_delimiter d) q f = true) fields ->
  exists out,
    NoMultilineQuotedReader_process limit self line = Ok out
    /\ split_line limit d out = Ok fields.
Proof.
  intros Hpath Hd Hq Hqd Hqn Hdn Hds Hp Hk.
  destruct (repair_path_dialect self line Hpath Hd)
    as (dl & q' & Hdl & Hquote & Ed).
  assert (q' = q) by (subst d; simpl in Hq; congruence). subst q'.
  assert (Edl : d_delimiter d = dl) by (subst d; reflexivity).
  rewrite Edl in *.
  exists (canonical_line dl q fields). split.
  - rewrite process_paths. cbv zeta. rewrite Hpath, Hd. simpl. rewrite Hp.
    simpl. rewrite (@writerow_canonical d q) by (subst d; reflexivity).
    rewrite Edl. reflexivity.
  - pose proof (@fields_within_limit _ _ _ _ Hp) as Hlen. subst d.
    apply canonical_line_round_trip; try assumption.
    rewrite Forall_forall in *. intros f Hf. split; auto.
Qed.

Lemma repaired_line_splits_into_parsed_fields_witness :
  exists out,
    NoMultilineQuotedReader_process DEFAULT_FIELD_LIMIT comma_reader
      (lit "a,b"%string ++ [DQUOTE] ++ lit "c,d"%string) = Ok out
    /\ split_line DEFAULT_FIELD_LIMIT
         {| d_delimiter := COMMA; d_quotechar := Some DQUOTE;
            d_quoting := QUOTE_MINIMAL; d_strict := false;
            d_skipinitialspace := true |} out
       = Ok [lit "a"%string; lit "b"%string ++ [DQUOTE] ++ lit "c"%string;
             lit "d"%string].
Proof.
  apply (@repaired_line_splits_into_parsed_fields DEFAULT_FIELD_LIMIT
           comma_reader (lit "a,b"%string ++ [DQUOTE] ++ lit "c,d"%string)
           {| d_delimiter := COMMA; d_quotechar := Some DQUOTE;
              d_quoting := QUOTE_MINIMAL; d_strict := false;
              d_skipinitialspace := true |} DQUOTE).
  - reflexivity.
  - reflexivity.
  - reflexivity.
  - discriminate.
  - reflexivity.
  - reflexivity.
  - discriminate.
  - vm_compute. reflexivity.
  - repeat constructor.
Defined.

(** ** Repairing a replacement line *)







Section SecondPass.

Variables dl q : char.
Variable strict : bool.
Variable limit : nat.
Hypothesis Hqd : q <> dl.
Hypothesis Hq_sp : isspace q = false.
Hypothesis Hdl_nl : is_newline dl = false.
Hypothesis Hdl : dl <> SP.

Local Abbreviation d :=
  {| d_delimiter := dl; d_quotechar := Some q; d_quoting := QUOTE_MINIMAL;
     d_strict := strict; d_skipinitialspace := true |}.

Local Abbreviation parser st b fs :=
  {| p_state := st; p_field := b; p_fields := fs |}.








End SecondPass.



(** ** What the filter can raise *)

Lemma step_errors (d : Dialect) (limit : nat) (p : Parser) (oc : option char)
    (e : exn) :
  parse_process_char d limit p oc = Raise e -> reader_error (d_strict d) e.
Proof.
  intros H. destruct p as [st b fs]. unfold reader_error.
  destruct st, oc as [c|]; parser_step H; injection H as <-; auto.
  right. right. split; [|auto].
  match goal with E : negb (d_strict d) = false |- _ =>
    apply negb_false_iff in E; exact E end.
Qed.

Lemma chars_errors (d : Dialect) (limit : nat) (line : str) (p : Parser)
    (e : exn) :
  parse_chars d limit p line = Raise e -> reader_error (d_strict d) e.
Proof.
  revert p. induction line as [|c line IH]; intros p H; [discriminate|].
  simpl in H.
  destruct (parse_process_char d limit p (Some c)) as [p1|e1] eqn:E; simpl in H.
  - exact (IH p1 H).
  - injection H as <-. exact (step_errors _ _ _ _ E).
Qed.

Lemma end_of_line_state (d : Dialect) (limit : nat) (p p' : Parser) :
  parse_process_char d limit p None = Ok p' ->
  p_state p' = START_RECORD \/ p_state p' = IN_QUOTED_FIELD.
Proof.
  intros H. destruct p as [st b fs].
  destruct st; parser_step H; injection H as <-; auto.
Qed.

Lemma single_line_errors (d : Dialect) (limit : nat) (line : str) (e : exn) :
  fst (Reader_iternext d limit [line]) = Raise e ->
  reader_error (d_strict d) e.
Proof.
  rewrite iternext_single.
  destruct (parse_chars d limit parse_reset line) as [p|e1] eqn:E1; simpl.
  - destruct (parse_process_char d limit p None) as [p'|e2] eqn:E2; simpl.
    + destruct (end_of_line_state _ _ _ E2) as [Hs|Hs]; rewrite Hs; simpl;
        [discriminate|].
      rewrite orb_true_r. destruct (d_strict d) eqn:Es; [|discriminate].
      intros H. injection H as <-. right. right. auto.
    + intros H. injection H as <-. exact (step_errors _ _ _ _ E2).
  - intros H. injection H as <-. exact (chars_errors _ _ _ _ E1).
Qed.

(** X8: the filter raises nothing but a [TypeError] for a delimiter or
    a quote character that is not one character, and the errors of the
    single-line parse: the field size limit and a line break outside
    quotes, and in strict mode also a character after a closing quote and
    an unclosed quote. It never raises [StopIteration]. *)
Theorem process_errors (limit : nat) (self : Reader) (line : str) (e : exn) :
  NoMultilineQuotedReader_process limit self line = Raise e ->
  takes_repair_path self line = true
  /\ ((e = TypeError /\ repair_dialect self = Raise TypeError)
      \/ reader_error (strict_delimitation self) e).
Proof.
  intros H. rewrite process_paths in H. cbv zeta in H.
  destruct (takes_repair_path self line) eqn:Hpath; [|discriminate].
  split; [reflexivity|].
  destruct (repair_dialect self) as [d|e1] eqn:Hd; simpl in H.
  - destruct (repair_path_dialect self line Hpath Hd)
      as (dl & q & Hdl & Hquote & Ed).
    destruct (parse_single_line limit d _) as [fields|e2] eqn:Hp; simpl in H.
    + rewrite (@writerow_canonical d q) in H by (subst d; reflexivity).
      discriminate.
    + injection H as <-. right.
      replace (strict_delimitation self) with (d_strict d)
        by (subst d; reflexivity).
      exact (single_line_errors _ _ _ Hp).
  - injection H as <-. left.
    assert (e1 = TypeError); [|subst; auto].
    unfold repair_dialect, make_dialect in Hd.
    destruct (delimiter self) as [|? [|? ?]];
      destruct (quote_char self) as [[|? [|? ?]]|];
      simpl in Hd; congruence.
Qed.

Lemma process_errors_witness :
  takes_repair_path comma_reader
    (lit "a"%string ++ [DQUOTE; LF] ++ lit "b"%string) = true
  /\ ((CsvError NewlineInUnquotedField = TypeError
       /\ repair_dialect comma_reader = Raise TypeError)
      \/ reader_error (strict_delimitation comma_reader)
           (CsvError NewlineInUnquotedField)).
Proof.
  apply (@process_errors DEFAULT_FIELD_LIMIT comma_reader
           (lit "a"%string ++ [DQUOTE; LF] ++ lit "b"%string)).
  vm_compute. reflexivity.
Defined.

(** ** Conversion of a field *)

Lemma str_eqb_eq (a b : str) : str_eqb a b = true <-> a = b.
Proof.
  revert b. induction a as [|x a IH]; intros [|y b]; simpl; split;
    try discriminate; try reflexivity.
  - intros H. apply andb_true_iff in H as [Hx Ha].
    apply N.eqb_eq in Hx. apply IH in Ha. congruence.
  - intros H. injection H as -> ->. rewrite N.eqb_refl. simpl. apply IH.
    reflexivity.
Qed.

Lemma lstrip_char_head (ch c : char) (s t : str) :
  lstrip_char ch s = c :: t -> c <> ch.
Proof.
  induction s as [|a s IH]; simpl; [discriminate|].
  destruct (N.eqb_spec a ch) as [|Ha]; [exact IH|].
  intros H. injection H as <- _. exact Ha.
Qed.

Lemma lstrip_char_fixed (ch : char) (s : str) :
  match s with c :: _ => c <> ch | [] => True end -> lstrip_char ch s = s.
Proof.
  destruct s as [|c s]; [reflexivity|]. simpl. intros H.
  destruct (N.eqb_spec c ch); [contradiction | reflexivity].
Qed.

Lemma lstrip_char_starts (ch : char) (s : str) :
  match lstrip_char ch s with c :: _ => c <> ch | [] => True end.
Proof.
  destruct (lstrip_char ch s) as [|c t] eqn:E; [exact I|].
  exact (@lstrip_char_head ch c s t E).
Qed.

Lemma lstrip_char_snoc (ch c : char) (s : str) :
  c <> ch -> lstrip_char ch (s ++ [c]) = lstrip_char ch s ++ [c].
Proof.
  intros Hc. induction s as [|a s IH]; simpl.
  - destruct (N.eqb_spec c ch); [contradiction | reflexivity].
  - destruct (N.eqb_spec a ch); [exact IH | reflexivity].
Qed.

Lemma strip_char_starts (ch : char) (s : str) :
  match strip_char ch s with c :: _ => c <> ch | [] => True end.
Proof.
  unfold strip_char. pose proof (lstrip_char_starts ch s) as H.
  destruct (lstrip_char ch s) as [|a u]; [exact I|].
  simpl rev. rewrite lstrip_char_snoc by exact H.
  rewrite rev_app_distr. simpl. exact H.
Qed.

Lemma strip_char_ends (ch : char) (s : str) :
  match rev (strip_char ch s) with c :: _ => c <> ch | [] => True end.
Proof.
  unfold strip_char. rewrite rev_involutive. apply lstrip_char_starts.
Qed.

Lemma strip_char_idempotent (ch : char) (s : str) :
  strip_char ch (strip_char ch s) = strip_char ch s.
Proof.
  unfold strip_char at 1.
  rewrite (@lstrip_char_fixed ch _ (strip_char_starts ch s)).
  rewrite (@lstrip_char_fixed ch _ (strip_char_ends ch s)).
  apply rev_involutive.
Qed.

Lemma strip_char_blank (ch : char) (s : str) :
  Forall (fun c => c = ch) s -> strip_char ch s = [].
Proof.
  intros H. unfold strip_char.
  assert (E : lstrip_char ch s = []).
  { induction H as [|c s Hc _ IH]; [reflexivity|].
    simpl. subst c. rewrite N.eqb_refl. exact IH. }
  rewrite E. reflexivity.
Qed.

(** X9: a text of spaces only, the empty text included, converts to
    [None] for every type and format, and raises nothing. *)
Theorem convert_blank (B : Builtins) (text new_type : str)
    (new_format : option str) (raise_on_error : bool) :
  Forall (fun c => c = SP) text ->
  _convert B text new_type new_format raise_on_error = Return VNone.
Proof.
  intros H. unfold _convert. rewrite (@strip_char_blank SP text H). reflexivity.
Qed.

Lemma convert_blank_witness :
  _convert sample_builtins (lit "   "%string) (lit "integer"%string) None true
  = Return VNone.
Proof.
  apply (@convert_blank sample_builtins (lit "   "%string)
           (lit "integer"%string) None true).
  repeat constructor.
Defined.



(** X11: for the type [string], and for every type that is none of the
    five names, [_convert] returns the text without the spaces around it
    ([None] when nothing is left) and raises nothing; the text returned
    neither starts nor ends with a space and converts to itself. *)
Theorem convert_string (B : Builtins) (text new_type : str)
    (new_format : option str) (raise_on_error : bool) :
  new_type = lit "string"%string
  \/ (new_type <> lit "integer"%string /\ new_type <> lit "float"%string
      /\ new_type <> lit "date"%string /\ new_type <> lit "datetime"%string) ->
  let stripped := strip_char SP text in
  _convert B text new_type new_format raise_on_error
  = Return (match stripped with [] => VNone | _ :: _ => VStr stripped end)
  /\ hd_error stripped <> Some SP
  /\ hd_error (rev stripped) <> Some SP
  /\ _convert B stripped new_type new_format raise_on_error
     = _convert B text new_type new_format raise_on_error.
Proof.
  intros Hty stripped.
  assert (Hconv : forall t, strip_char SP t = stripped ->
            _convert B t new_type new_format raise_on_error
            = Return (match stripped with [] => VNone | _ :: _ => VStr stripped end)).
  { intros t Ht. unfold _convert. rewrite Ht.
    destruct stripped as [|c s] eqn:Es; [reflexivity|]. cbn [str_eqb].
    destruct Hty as [->|(Hi & Hf & Hd & Ht')]; [reflexivity|].
    destruct (str_eqb new_type (lit "string"%string)); [reflexivity|].
    destruct (str_eqb new_type (lit "integer"%string)) eqn:E1;
      [apply str_eqb_eq in E1; contradiction|].
    destruct (str_eqb new_type (lit "float"%string)) eqn:E2;
      [apply str_eqb_eq in E2; contradiction|].
    destruct (str_eqb new_type (lit "date"%string)) eqn:E3;
      [apply str_eqb_eq in E3; contradiction|].
    destruct (str_eqb new_type (lit "datetime"%string)) eqn:E4;
      [apply str_eqb_eq in E4; contradiction|].
    reflexivity. }
  split; [apply Hconv; reflexivity|].
  split.
  { pose proof (strip_char_starts SP text) as H. fold stripped in H.
    destruct stripped; simpl; congruence. }
  split.
  { pose proof (strip_char_ends SP text) as H. fold stripped in H.
    destruct (rev stripped); simpl; congruence. }
  rewrite (Hconv text eq_refl). apply Hconv. apply strip_char_idempotent.
Qed.

Lemma convert_string_witness :
  _convert sample_builtins (lit "  a b "%string) (lit "string"%string) None true
  = Return (VStr (lit "a b"%string)).
Proof.
  refine (proj1 (@convert_string sample_builtins (lit "  a b "%string)
                   (lit "string"%string) None true _)).
  left. reflexivity.
Defined.

(** ** The attributes [__init__] derives *)

Lemma init_loop (fields0 : list dict) (types : list str)
    (formats : list (option str)) (max_index : Z) :
  fold_left
    (fun acc field =>
       let '(types, formats, max_index) := acc in
       (types ++ [dict_get field (lit "datatype"%string) (lit "string"%string)],
        formats ++
          [if dict_has field (lit "datatype"%string) (lit "date"%string)
           then Some (dict_get field (lit "date_format"%string)
                        DEFAULT_DATE_FORMAT)
           else if dict_has field (lit "datatype"%string)
                     (lit "datetime"%string)
           then Some (dict_get field (lit "datetime_format"%string)
                        DEFAULT_DATETIME_FORMAT)
           else None],
        (max_index + 1)%Z))
    fields0 (types, formats, max_index)
  = (types
     ++ map (fun field =>
               dict_get field (lit "datatype"%string) (lit "string"%string))
          fields0,
     formats
     ++ map (fun field =>
               if dict_has field (lit "datatype"%string) (lit "date"%string)
               then Some (dict_get field (lit "date_format"%string)
                            DEFAULT_DATE_FORMAT)
               else if dict_has field (lit "datatype"%string)
                         (lit "datetime"%string)
               then Some (dict_get field (lit "datetime_format"%string)
                            DEFAULT_DATETIME_FORMAT)
               else None)
          fields0,
     (max_index + Z.of_nat (length fields0))%Z).
Proof.
  revert types formats max_index.
  induction fields0 as [|field rest IH]; intros types formats max_index.
  - cbn [fold_left map length]. rewrite !app_nil_r, Z.add_0_r. reflexivity.
  - cbn [fold_left map]. rewrite IH, <- !app_assoc.
    cbn [app length]. f_equal. lia.
Qed.

Lemma init_derived (name : str) (fields0 : list dict) (delim : str)
    (quote : option str) (strict : bool) (header_lines : Z)
    (convert raise_errors pad : bool) :
  let self := __init__ name fields0 delim quote strict header_lines convert
                raise_errors pad in
  length (_field_types self) = length fields0
  /\ length (_field_formats self) = length fields0
  /\ _len_fields self = length fields0
  /\ rpad self = pad /\ convert_values self = convert
  /\ raise_convert_errors self = raise_errors.
Proof.
  cbv zeta. unfold __init__. rewrite init_loop.
  cbn [_field_types _field_formats _len_fields rpad convert_values
       raise_convert_errors app].
  rewrite !length_map. repeat split.
Qed.

(** X12: [__init__] leaves the reader closed and derives one type and one
    format for every field description, in order: the type is the
    [datatype] of the description or [string], the format is set for the
    types [date] and [datetime] only, to the format of the description or
    the default one; [_len_fields] is the number of descriptions and
    [_max_index] one less. *)
Theorem init_attributes (name : str) (fields0 : list dict) (delim : str)
    (quote : option str) (strict : bool) (header_lines : Z)
    (convert raise_errors pad : bool) :
  let self := __init__ name fields0 delim quote strict header_lines convert
                raise_errors pad in
  _field_types self
  = map (fun field =>
           dict_get field (lit "datatype"%string) (lit "string"%string))
      fields0
  /\ _field_formats self
     = map (fun field =>
              if dict_has field (lit "datatype"%string) (lit "date"%string)
              then Some (dict_get field (lit "date_format"%string)
                           DEFAULT_DATE_FORMAT)
              else if dict_has field (lit "datatype"%string)
                        (lit "datetime"%string)
              then Some (dict_get field (lit "datetime_format"%string)
                           DEFAULT_DATETIME_FORMAT)
              else None)
         fields0
  /\ length (_field_types self) = _len_fields self
  /\ length (_field_formats self) = _len_fields self
  /\ _len_fields self = length fields0
  /\ _max_index self = (Z.of_nat (length fields0) - 1)%Z
  /\ file (core self) = None /\ reader (core self) = None
  /\ rows_read self = None.
Proof.
  cbv zeta. unfold __init__, rows_read. rewrite init_loop.
  cbn [_field_types _field_formats _len_fields _max_index core file reader
       _rows_read app].
  rewrite !length_map. repeat split. lia.
Qed.

(** ** The line made of a row *)

Lemma convert_zip_length (B : Builtins) (flag : bool) (row types : list str)
    (formats : list (option str)) (line : list (value B)) :
  convert_zip B flag row types formats = Return line ->
  length line = Nat.min (length row) (Nat.min (length types) (length formats)).
Proof.
  revert types formats line.
  induction row as [|text row IH]; intros types formats line H.
  - injection H as <-. reflexivity.
  - destruct types as [|ty types]; [injection H as <-; reflexivity|].
    destruct formats as [|fmt formats]; [injection H as <-; reflexivity|].
    cbn [convert_zip] in H.
    destruct (_convert B text ty fmt flag) as [v|]; [|discriminate].
    cbn [rbind] in H.
    destruct (convert_zip B flag row types formats) as [vs|] eqn:E;
      [|discriminate].
    cbn [rbind] in H. injection H as <-. cbn [length].
    rewrite (IH types formats vs E). reflexivity.
Qed.

Lemma convert_strings_length (B : Builtins) (flag : bool) (row : list str)
    (line : list (value B)) :
  convert_strings B flag row = Return line -> length line = length row.
Proof.
  revert line. induction row as [|f row IH]; intros line H.
  - injection H as <-. reflexivity.
  - cbn [convert_strings] in H.
    destruct (_convert B f _ None flag) as [v|]; [|discriminate].
    cbn [rbind] in H.
    destruct (convert_strings B flag row) as [vs|] eqn:E; [|discriminate].
    cbn [rbind] in H. injection H as <-. cbn [length].
    rewrite (IH vs eq_refl). reflexivity.
Qed.

Lemma line_of_row_length (B : Builtins) (self : ReaderObject) (row : list str)
    (line : list (value B)) :
  length (_field_types self) = _len_fields self ->
  length (_field_formats self) = _len_fields self ->
  line_of_row B self row = Return line ->
  length line = if rpad self then Nat.max (length row) (_len_fields self)
                else length row.
Proof.
  intros Ht Hf. unfold line_of_row.
  destruct (convert_values self).
  - destruct (Nat.leb_spec (length row) (_len_fields self)) as [Hle|Hgt].
    + destruct (convert_zip B _ row _ _) as [l|] eqn:E; [|discriminate].
      apply convert_zip_length in E. rewrite Ht, Hf in E.
      cbn [rbind]. intros H. injection H as <-.
      destruct (rpad self); [rewrite length_app, repeat_length|]; lia.
    + destruct (convert_zip B _ row _ _) as [l|] eqn:E; [|discriminate].
      apply convert_zip_length in E. rewrite Ht, Hf in E.
      cbn [rbind].
      destruct (convert_strings B _ _) as [more|] eqn:E2; [|discriminate].
      apply convert_strings_length in E2. rewrite length_skipn in E2.
      cbn [rbind]. intros H. injection H as <-.
      rewrite length_app. destruct (rpad self); lia.
  - intros H. injection H as <-. rewrite length_map.
    destruct (rpad self); cbn [andb].
    + destruct (Nat.ltb_spec (length row) (_len_fields self));
        [rewrite length_app, repeat_length, length_map|rewrite length_map]; lia.
    + rewrite length_map. reflexivity.
Qed.

(** X13: the line [__next__] makes of a row, converted or not, has the
    length of the row, and with [rpad] at least the number of fields: a
    shorter row is filled up ([None] after conversion, the empty string
    otherwise), a longer row keeps its extra columns. *)
Theorem line_length (B : Builtins) (name : str) (fields0 : list dict)
    (delim : str) (quote : option str) (strict : bool) (header_lines : Z)
    (convert raise_errors pad : bool) (row : list str)
    (line : list (value B)) :
  let self := __init__ name fields0 delim quote strict header_lines convert
                raise_errors pad in
  line_of_row B self row = Return line ->
  length line = if pad then Nat.max (length row) (length fields0)
                else length row.
Proof.
  cbv zeta. intros H.
  destruct (init_derived name fields0 delim quote strict header_lines
              convert raise_errors pad) as (Ht & Hf & Hl & Hp & _).
  cbv zeta in Ht, Hf, Hl, Hp. rewrite <- Hl in Ht, Hf.
  rewrite (@line_of_row_length B _ row line Ht Hf H), Hl, Hp. reflexivity.
Qed.

Lemma line_length_witness :
  length [VStr (lit "x"%string); VInt 12%Z; @VNone sample_builtins]
  = if true then Nat.max (length [lit " x"%string; lit "12"%string]) (length sample_fields)
    else length [lit " x"%string; lit "12"%string].
Proof.
  apply (@line_length sample_builtins (lit "data.csv"%string) sample_fields
           [COMMA] (Some [DQUOTE]) false 0 true true true
           [lit " x"%string; lit "12"%string]).
  vm_compute. reflexivity.
Defined.

(** ** Iteration *)

Lemma parse_line_errors (d : Dialect) (limit : nat) (p : Parser) (line : str)
    (e : exn) :
  parse_line d limit p line = Raise e -> reader_error (d_strict d) e.
Proof.
  unfold parse_line.
  destruct (parse_chars d limit p line) as [p1|e1] eqn:E; simpl.
  - apply step_errors.
  - intros H. injection H as <-. exact (chars_errors _ _ _ _ E).
Qed.

Lemma reader_error_not_stop (strict : bool) :
  ~ reader_error strict StopIteration.
Proof.
  unfold reader_error. intros [H|[H|[_ [H|H]]]]; discriminate H.
Qed.

(** A [StopIteration] of the csv reader means that the generator has
    finished. *)
Lemma reader_loop_stop (process : str -> outcome str) (d : Dialect)
    (limit : nat) (rest : list read) (p : Parser) (pos line_num : nat) :
  fst (reader_loop process d limit p rest pos line_num)
  = Throw (Builtin StopIteration) ->
  snd (snd (reader_loop process d limit p rest pos line_num)) = false.
Proof.
  revert p pos line_num.
  induction rest as [|[line|e0] rest IH]; intros p pos line_num H;
    [reflexivity| |reflexivity].
  cbn [reader_loop] in *.
  destruct (process line) as [line'|e].
  - destruct (parse_line d limit p line') as [p'|e] eqn:E.
    + destruct (ParserState_eqb (p_state p') START_RECORD);
        [discriminate H | exact (IH _ _ _ H)].
    + simpl in H. injection H as ->.
      exfalso. exact (reader_error_not_stop (parse_line_errors _ _ _ _ E)).
  - destruct e; reflexivity.
Qed.

Lemma convert_throws (B : Builtins) (text new_type : str)
    (new_format : option str) (flag : bool) (e : raised) :
  _convert B text new_type new_format flag = Throw e ->
  e = ValueError \/ e = Builtin TypeError.
Proof.
  unfold _convert.
  repeat match goal with
         | |- context [if ?b then _ else _] => destruct b
         | |- context [match ?o with Some _ => _ | None => _ end] => destruct o
         end;
    intros H; try discriminate H; injection H as <-; auto.
Qed.

Lemma convert_zip_throws (B : Builtins) (flag : bool) (row types : list str)
    (formats : list (option str)) (e : raised) :
  convert_zip B flag row types formats = Throw e ->
  e = ValueError \/ e = Builtin TypeError.
Proof.
  revert types formats. induction row as [|text row IH]; intros types formats H;
    [discriminate|].
  destruct types as [|ty types]; [discriminate|].
  destruct formats as [|fmt formats]; [discriminate|].
  cbn [convert_zip] in H.
  destruct (_convert B text ty fmt flag) as [v|e1] eqn:E1; cbn [rbind] in H.
  - destruct (convert_zip B flag row types formats) as [vs|e2] eqn:E2;
      cbn [rbind] in H; [discriminate|].
    injection H as <-. exact (IH _ _ E2).
  - injection H as <-. exact (@convert_throws B text ty fmt flag e1 E1).
Qed.

Lemma convert_strings_throws (B : Builtins) (flag : bool) (row : list str)
    (e : raised) :
  convert_strings B flag row = Throw e ->
  e = ValueError \/ e = Builtin TypeError.
Proof.
  induction row as [|f row IH]; intros H; [discriminate|].
  cbn [convert_strings] in H.
  destruct (_convert B f _ None flag) as [v|e1] eqn:E1; cbn [rbind] in H.
  - destruct (convert_strings B flag row) as [vs|e2] eqn:E2;
      cbn [rbind] in H; [discriminate|].
    injection H as <-. exact (IH eq_refl).
  - injection H as <-.
    exact (@convert_throws B f _ None flag e1 E1).
Qed.

Lemma line_of_row_throws (B : Builtins) (self : ReaderObject) (row : list str)
    (e : raised) :
  line_of_row B self row = Throw e ->
  e = ValueError \/ e = Builtin TypeError.
Proof.
  unfold line_of_row. destruct (convert_values self); [|discriminate].
  destruct (length row <=? _len_fields self).
  - destruct (convert_zip B _ row _ _) as [l|e1] eqn:E1; cbn [rbind];
      [discriminate|].
    intros H. injection H as <-.
    exact (@convert_zip_throws B _ row _ _ e1 E1).
  - destruct (convert_zip B _ row _ _) as [l|e1] eqn:E1; cbn [rbind].
    + destruct (convert_strings B _ _) as [m|e2] eqn:E2; cbn [rbind];
        [discriminate|].
      intros H. injection H as <-.
      exact (@convert_strings_throws B _ _ e2 E2).
    + intros H. injection H as <-.
      exact (@convert_zip_throws B _ row _ _ e1 E1).
Qed.

Lemma line_of_row_core (B : Builtins) (c : Reader) (s : ReaderObject)
    (row : list str) :
  line_of_row B (set_core c s) row = line_of_row B s row.
Proof. reflexivity. Qed.

Section IterationFacts.

Variable fs : str -> option (list read).
Variable limit : nat.
Variable process : Reader -> str -> outcome str.
Variable B : Builtins.

Local Abbreviation next := (__next__ fs limit process B).

(** [__next__] on an open reader, step by step. *)
Lemma next_open (s : ReaderObject) (f : TextFile) (r : CsvReader) :
  file (core s) = Some f -> reader (core s) = Some r ->
  next s =
  let loop :=
    reader_loop (process (core s)) (r_dialect r) limit parse_reset
      (if r_alive r then skipn (f_pos f) (f_lines f) else [])
      (f_pos f) (r_line_num r) in
  let s' :=
    set_core
      (set_reader (Some {| r_dialect := r_dialect r;
                           r_alive := snd (snd loop);
                           r_line_num := snd (fst (snd loop)) |})
         (set_file (Some {| f_lines := f_lines f;
                            f_pos := fst (fst (snd loop)) |})
            (core s)))
      s in
  match rbind (fst loop) (line_of_row B s) with
  | Throw e => (Throw e, s')
  | Return line =>
      match _rows_read (core s) with
      | None => (Throw (Builtin TypeError), s')
      | Some n =>
          (Return line, set_core (set_rows_read (Some (n + 1)%Z) (core s')) s')
      end
  end.
Proof.
  intros Hf Hr. unfold __next__, open_if_closed. rewrite Hf.
  cbv beta iota zeta. rewrite Hr, Hf.
  destruct (reader_loop _ _ _ _ _ _ _) as [row [[pos ln] alive]].
  cbn [fst snd]. destruct row as [row|e]; [|reflexivity].
  cbn [rbind]. rewrite line_of_row_core.
  destruct (line_of_row B s row); reflexivity.
Qed.

Lemma next_without_reader (s : ReaderObject) (f : TextFile) :
  file (core s) = Some f -> reader (core s) = None ->
  next s = (Throw (Builtin TypeError), s).
Proof.
  intros Hf Hr. unfold __next__, open_if_closed. rewrite Hf.
  cbv beta iota zeta. rewrite Hr. reflexivity.
Qed.

Lemma next_counts (s : ReaderObject) :
  file (core s) <> None ->
  match fst (next s) with
  | Return _ =>
      exists n, rows_read s = Some n /\ rows_read (snd (next s)) = Some (n + 1)%Z
  | Throw _ => rows_read (snd (next s)) = rows_read s
  end.
Proof.
  intros Hopen. destruct (file (core s)) as [f|] eqn:Hf; [|congruence].
  destruct (reader (core s)) as [r|] eqn:Hr.
  - rewrite (next_open s Hf Hr). cbv zeta.
    destruct (rbind _ _) as [line|e]; [|reflexivity].
    unfold rows_read. destruct (_rows_read (core s)) as [n|] eqn:Hn.
    + exists n. split; reflexivity.
    + cbn. exact Hn.
  - rewrite (next_without_reader s Hf Hr). reflexivity.
Qed.

Lemma exhausted_next (s : ReaderObject) :
  exhausted s ->
  fst (next s) = Throw (Builtin StopIteration) /\ exhausted (snd (next s)).
Proof.
  intros [[f Hf] (r & Hr & Ha)]. rewrite (next_open s Hf Hr). cbv zeta.
  rewrite Ha. cbn. split; [reflexivity|].
  split; [eexists; reflexivity|]. eexists. split; reflexivity.
Qed.

Lemma exhausted_reset (s : ReaderObject) :
  exhausted s -> exhausted (snd (reset_object fs s)).
Proof.
  intros [[f Hf] (r & Hr & Ha)]. unfold reset_object. cbn [snd].
  destruct (reset_open_reader fs (core s) Hf) as (f' & Hs & _).
  rewrite Hs. split; [exists f'; reflexivity|].
  exists r. split; [exact Hr | exact Ha].
Qed.

Lemma next_exhausts (s : ReaderObject) :
  file (core s) <> None ->
  fst (next s) = Throw (Builtin StopIteration) ->
  exhausted (snd (next s)).
Proof.
  intros Hopen. destruct (file (core s)) as [f|] eqn:Hf; [|congruence].
  destruct (reader (core s)) as [r|] eqn:Hr;
    [|rewrite (next_without_reader s Hf Hr); discriminate].
  rewrite (next_open s Hf Hr). cbv zeta.
  set (loop := reader_loop _ _ _ _ _ _ _).
  destruct (fst loop) as [row|e] eqn:Eloop; cbn [rbind].
  - destruct (line_of_row B s row) as [line|e] eqn:El.
    + destruct (_rows_read (core s)); discriminate.
    + cbn [fst]. intros H. injection H as ->.
      destruct (@line_of_row_throws B s row _ El); discriminate.
  - cbn [fst snd]. intros H. injection H as ->.
    split; [eexists; reflexivity|]. eexists. split; [reflexivity|].
    cbn [r_alive]. exact (reader_loop_stop _ _ _ _ _ _ _ Eloop).
Qed.

Lemma exhausted_after_calls (calls : list bool) (s : ReaderObject) :
  exhausted s -> exhausted (after_calls fs limit process B calls s).
Proof.
  revert s. induction calls as [|[|] calls IH]; intros s Hs; [exact Hs| |].
  - apply IH, exhausted_reset, Hs.
  - apply IH. exact (proj2 (exhausted_next Hs)).
Qed.

End IterationFacts.

(** X14: on an open reader, a [__next__] that returns a line adds one to
    [rows_read], and a [__next__] that raises leaves [rows_read] as it
    was. *)
Theorem next_counts_rows (fs : str -> option (list read)) (limit : nat)
    (process : Reader -> str -> outcome str) (B : Builtins)
    (self : ReaderObject) :
  file (core self) <> None ->
  match fst (__next__ fs limit process B self) with
  | Return _ =>
      exists n, rows_read self = Some n
                /\ rows_read (snd (__next__ fs limit process B self))
                   = Some (n + 1)%Z
  | Throw _ =>
      rows_read (snd (__next__ fs limit process B self)) = rows_read self
  end.
Proof. apply next_counts. Qed.

(** X15: once [__next__] has raised [StopIteration] on an open reader, it
    raises [StopIteration] after every later series of [reset] and
    [__next__] calls: [reset] rewinds the file but the csv reader still
    draws from the generator that has finished. *)
Theorem exhausted_reader_stays_exhausted (fs : str -> option (list read))
    (limit : nat) (process : Reader -> str -> outcome str) (B : Builtins)
    (self : ReaderObject) (calls : list bool) :
  file (core self) <> None ->
  fst (__next__ fs limit process B self) = Throw (Builtin StopIteration) ->
  fst (__next__ fs limit process B
         (after_calls fs limit process B calls
            (snd (__next__ fs limit process B self))))
  = Throw (Builtin StopIteration).
Proof.
  intros Hopen Hstop.
  pose proof (@next_exhausts fs limit process B self Hopen Hstop) as Hex.
  apply (@exhausted_after_calls fs limit process B calls) in Hex.
  exact (proj1 (@exhausted_next fs limit process B _ Hex)).
Qed.

Lemma next_counts_rows_witness :
  match fst (__next__ sample_fs DEFAULT_FIELD_LIMIT Reader_hook sample_builtins
               (snd (reset_object sample_fs (sample_reader true true)))) with
  | Return _ =>
      exists n,
        rows_read (snd (reset_object sample_fs (sample_reader true true)))
        = Some n
        /\ rows_read
             (snd (__next__ sample_fs DEFAULT_FIELD_LIMIT Reader_hook
                     sample_builtins
                     (snd (reset_object sample_fs (sample_reader true true)))))
           = Some (n + 1)%Z
  | Throw _ =>
      rows_read
        (snd (__next__ sample_fs DEFAULT_FIELD_LIMIT Reader_hook
                sample_builtins
                (snd (reset_object sample_fs (sample_reader true true)))))
      = rows_read (snd (reset_object sample_fs (sample_reader true true)))
  end.
Proof.
  apply (@next_counts_rows sample_fs DEFAULT_FIELD_LIMIT Reader_hook
           sample_builtins
           (snd (reset_object sample_fs (sample_reader true true)))).
  vm_compute. discriminate.
Defined.

Lemma exhausted_reader_stays_exhausted_witness :
  let next := __next__ sample_fs DEFAULT_FIELD_LIMIT Reader_hook
                sample_builtins in
  let calls := after_calls sample_fs DEFAULT_FIELD_LIMIT Reader_hook
                 sample_builtins in
  let at_end := calls [true; false; false] (sample_reader false false) in
  fst (next (calls [true] (snd (next at_end))))
  = Throw (Builtin StopIteration).
Proof.
  cbv zeta.
  apply (@exhausted_reader_stays_exhausted sample_fs DEFAULT_FIELD_LIMIT
           Reader_hook sample_builtins
           (after_calls sample_fs DEFAULT_FIELD_LIMIT Reader_hook
              sample_builtins [true; false; false] (sample_reader false false))
           [true]).
  - vm_compute. discriminate.
  - vm_compute. reflexivity.
Defined.

(** ** Reading after [reset] and after [__exit__] *)

(** For the base class, whose [_process] cannot raise, the csv reader
    reads the records of the lines the file still holds, each with its
    NUL characters replaced. *)
Lemma base_loop (c : Reader) (d : Dialect) (limit : nat) (rest : list str)
    (p : Parser) (pos line_num : nat) :
  fst (reader_loop (Reader_hook c) d limit p (map Line rest) pos line_num)
  = lift (fst (iternext_loop d limit p (map (str_replace_char NUL SP) rest))).
Proof.
  revert p pos line_num.
  induction rest as [|line rest IH]; intros p pos line_num.
  - cbn [reader_loop map iternext_loop fst]. unfold end_of_input.
    destruct (_ || _); [|reflexivity]. destruct (d_strict d); reflexivity.
  - cbn [reader_loop map iternext_loop]. unfold Reader_hook, Reader_process.
    destruct (parse_line d limit p (str_replace_char NUL SP line)) as [p'|e];
      [|reflexivity].
    destruct (ParserState_eqb (p_state p') START_RECORD); [reflexivity|].
    apply IH.
Qed.

Section BaseReader.

Variable fs : str -> option (list read).
Variable limit : nat.
Variable B : Builtins.

Local Abbreviation next := (__next__ fs limit Reader_hook B).

(** [__next__] of the base class on an open reader whose generator is
    alive. *)
Lemma next_alive (s : ReaderObject) (f : TextFile) (r : CsvReader) (n : Z)
    (lines : list str) :
  file (core s) = Some f -> reader (core s) = Some r -> r_alive r = true ->
  _rows_read (core s) = Some n ->
  f_lines f = map Line lines ->
  fst (next s)
  = rbind (lift (fst (Reader_iternext (r_dialect r) limit
                        (map (str_replace_char NUL SP)
                           (skipn (f_pos f) lines)))))
      (line_of_row B s)
  /\ rows_read (snd (next s))
     = match fst (next s) with
       | Return _ => Some (n + 1)%Z
       | Throw _ => Some n
       end.
Proof.
  intros Hf Hr Ha Hn Hl.
  rewrite (@next_open fs limit Reader_hook B s f r Hf Hr).
  cbv zeta. rewrite Ha, Hn, Hl, skipn_map, base_loop. unfold Reader_iternext.
  destruct (rbind _ _) as [line|e]; split; reflexivity || (cbn; exact Hn).
Qed.

End BaseReader.

Lemma all_lines_nth (lines : list str) (k : nat) (e : read_error) :
  nth_error (map Line lines) k <> Some (Failed e).
Proof.
  rewrite nth_error_map. destruct (nth_error lines k); discriminate.
Qed.

Lemma open_closed_reader (fs : str -> option (list read)) (c : Reader)
    (lines : list str) (d : Dialect) :
  file c = None -> fs (filename c) = Some (map Line lines) ->
  repair_dialect c = Ok d ->
  Z.to_nat (number_of_header_lines c) <= length lines ->
  exists f',
    _open fs c
    = (Ok tt,
       set_file (Some f')
         (set_rows_read (Some 0%Z)
            (set_reader (Some {| r_dialect := d; r_alive := true;
                                 r_line_num := 0 |})
               (set_file (Some {| f_lines := map Line lines; f_pos := 0 |})
                  c))))
    /\ f_lines f' = map Line lines
    /\ f_pos f' = Z.to_nat (number_of_header_lines c).
Proof.
  intros Hf Hfs Hd Hh. unfold _open. rewrite Hfs.
  unfold repair_dialect in Hd. cbv zeta.
  cbn [delimiter strict_delimitation quote_char set_file]. rewrite Hd.
  set (c0 := set_rows_read _ _).
  destruct (@skip_lines_file (Z.to_nat (number_of_header_lines c)) c0
              {| f_lines := map Line lines; f_pos := 0 |} eq_refl)
    as (f' & Hs & Hl & Hcase).
  cbn [f_lines f_pos Nat.add] in Hl, Hcase.
  destruct Hcase as [(_ & Hp & Ho)|(k & e & _ & Hnth & _)];
    [|exfalso; exact (all_lines_nth _ _ Hnth)].
  rewrite length_map in Hp, Ho.
  destruct (Nat.leb_spec (Z.to_nat (number_of_header_lines c)) (length lines));
    [|lia].
  rewrite orb_true_r in Ho.
  exists f'. split; [|split; assumption].
  change (number_of_header_lines c0) with (number_of_header_lines c).
  rewrite (surjective_pairing (skip_lines _ c0)), Hs, Ho. reflexivity.
Qed.

Section Reopening.

Variable fs : str -> option (list read).
Variable limit : nat.
Variable B : Builtins.

Local Abbreviation next := (__next__ fs limit Reader_hook B).

Lemma next_via_open (s s2 : ReaderObject) :
  open_if_closed fs s = (Return tt, s2) -> file (core s2) <> None ->
  next s = next s2.
Proof.
  intros Ho Hf.
  assert (Ho2 : open_if_closed fs s2 = (Return tt, s2)).
  { unfold open_if_closed. destruct (file (core s2)); [reflexivity|congruence]. }
  unfold __next__. rewrite Ho, Ho2. reflexivity.
Qed.


Lemma next_after_exit_base (s : ReaderObject) (lines : list str) (d : Dialect) :
  file (core s) <> None ->
  fs (filename (core s)) = Some (map Line lines) ->
  repair_dialect (core s) = Ok d ->
  Z.to_nat (number_of_header_lines (core s)) <= length lines ->
  let s1 := snd (__exit__ s) in
  fst (next s1)
  = rbind (lift (fst (Reader_iternext d limit
                        (map (str_replace_char NUL SP)
                           (skipn (Z.to_nat (number_of_header_lines (core s)))
                              lines)))))
      (line_of_row B s)
  /\ rows_read (snd (next s1))
     = match fst (next s1) with
       | Return _ => Some 1%Z
       | Throw _ => Some 0%Z
       end.
Proof.
  intros Hopen Hfs Hd Hh s1. subst s1. unfold __exit__, _close.
  destruct (file (core s)) as [f|] eqn:Hf; [|congruence].
  cbn [core set_core set_reader file snd]. rewrite Hf. cbn [snd].
  set (c1 := set_file None _).
  destruct (@open_closed_reader fs c1 lines d eq_refl Hfs Hd Hh)
    as (f' & Hopen' & Hl & Hp).
  set (s1 := set_core c1 _).
  assert (Ho : open_if_closed fs s1
               = (Return tt, set_core (snd (_open fs c1)) s1)).
  { unfold open_if_closed. cbn [core s1 set_core]. cbn [file c1 set_file].
    rewrite Hopen'. reflexivity. }
  rewrite (next_via_open _ Ho) by (rewrite Hopen'; discriminate).
  rewrite Hopen'. cbn [snd].
  match goal with
  | |- context [next ?s2] =>
      destruct (@next_alive fs limit B s2 f'
                  {| r_dialect := d; r_alive := true; r_line_num := 0 |}
                  0%Z lines eq_refl eq_refl eq_refl eq_refl Hl) as [H1 H2]
  end.
  rewrite Hp in H1. split; [exact H1 | exact H2].
Qed.

End Reopening.


(** X17: [__exit__] raises nothing: it closes an open reader, clearing
    [file] and [reader] and keeping [rows_read], does nothing to a closed
    one, and a second [__exit__] changes nothing; [_close] alone raises
    [AttributeError] on a closed reader. *)
Theorem exit_closes (self : ReaderObject) :
  let closed := snd (__exit__ self) in
  fst (__exit__ self) = Return tt
  /\ file (core closed) = None
  /\ (file (core self) = None \/ reader (core closed) = None)
  /\ rows_read closed = rows_read self
  /\ __exit__ closed = (Return tt, closed)
  /\ ((exists f, file (core self) = Some f)
      \/ fst (_close self) = Throw AttributeError).
Proof.
  cbv zeta. unfold __exit__, _close, rows_read.
  destruct (file (core self)) as [f|] eqn:Hf.
  - cbn [core set_core set_reader file fst snd]. rewrite Hf.
    cbn [fst snd core set_core set_file set_reader file reader _rows_read].
    repeat split; eauto.
  - cbn [core set_core set_reader file fst snd]. rewrite Hf.
    repeat split; auto.
Qed.

(** X18: for the base class and a file of which every read gives a line
    (none fails, none meets bytes that cannot be decoded), [__next__]
    after [__exit__] starts over: it opens the file again and returns the
    first record after the header lines, counted as row 1, whether or not
    the reader was exhausted before. *)
Theorem next_after_exit (fs : str -> option (list read)) (limit : nat)
    (B : Builtins) (self : ReaderObject) (lines : list str) (d : Dialect) :
  file (core self) <> None ->
  fs (filename (core self)) = Some (map Line lines) ->
  repair_dialect (core self) = Ok d ->
  Z.to_nat (number_of_header_lines (core self)) <= length lines ->
  let s1 := snd (__exit__ self) in
  fst (__next__ fs limit Reader_hook B s1)
  = rbind (lift (fst (Reader_iternext d limit
                        (map (str_replace_char NUL SP)
                           (skipn (Z.to_nat
                                     (number_of_header_lines (core self)))
                              lines)))))
      (line_of_row B self)
  /\ rows_read (snd (__next__ fs limit Reader_hook B s1))
     = match fst (__next__ fs limit Reader_hook B s1) with
       | Return _ => Some 1%Z
       | Throw _ => Some 0%Z
       end.
Proof. apply next_after_exit_base. Qed.


Lemma next_after_exit_witness :
  let self := after_calls sample_fs DEFAULT_FIELD_LIMIT Reader_hook
                sample_builtins [true; false; false; false]
                (sample_reader true true) in
  fst (__next__ sample_fs DEFAULT_FIELD_LIMIT Reader_hook sample_builtins
         (snd (__exit__ self)))
  = Return [VStr (lit "a"%string); VInt 1%Z; VNone].
Proof.
  cbv zeta.
  refine (eq_trans
            (proj1
               (@next_after_exit sample_fs DEFAULT_FIELD_LIMIT sample_builtins
                  (after_calls sample_fs DEFAULT_FIELD_LIMIT Reader_hook
                     sample_builtins [true; false; false; false]
                     (sample_reader true true))
                  sample_lines
                  {| d_delimiter := COMMA; d_quotechar := Some DQUOTE;
                     d_quoting := QUOTE_MINIMAL; d_strict := false;
                     d_skipinitialspace := true |}
                  _ _ _ _)) _).
  - vm_compute. discriminate.
  - vm_compute. reflexivity.
  - vm_compute. reflexivity.
  - vm_compute. lia.
  - vm_compute. reflexivity.
Defined.

(** ** What [__next__] can raise *)

(** The filter never raises [StopIteration]. *)
Lemma filter_does_not_stop (limit : nat) (self : Reader) (line : str) :
  NoMultilineQuotedReader_process limit self line <> Raise StopIteration.
Proof.
  rewrite process_paths. cbv zeta.
  destruct (takes_repair_path self line) eqn:Hpath; [|discriminate].
  destruct (repair_dialect self) as [d|e1] eqn:Hd; simpl.
  - destruct (repair_path_dialect self line Hpath Hd)
      as (dl & q & Hdl & Hquote & Ed).
    destruct (parse_single_line limit d _) as [fields|e2] eqn:Hp; simpl.
    + rewrite (@writerow_canonical d q) by (subst d; reflexivity).
      discriminate.
    + intros H. injection H as ->.
      exact (@reader_error_not_stop _ (@single_line_errors _ _ _ _ Hp)).
  - unfold repair_dialect, make_dialect in Hd.
    destruct (delimiter self) as [|? [|? ?]];
      destruct (quote_char self) as [[|? [|? ?]]|];
      simpl in Hd; congruence.
Qed.

(** The errors of the csv reader over the generator: its own, that of a
    read of the file that fails, and those of [_process] on a line still
    to read. *)
Lemma reader_loop_throws (process : str -> outcome str) (d : Dialect)
    (limit : nat) (rest : list read) (p : Parser) (pos line_num : nat)
    (e : raised) :
  fst (reader_loop process d limit p rest pos line_num) = Throw e ->
  e = Builtin StopIteration
  \/ (exists e', e = Builtin e' /\ reader_error (d_strict d) e')
  \/ (exists r, In (Failed r) rest /\ e = Builtin (read_exn r))
  \/ (exists line e',
        In (Line line) rest /\ process line = Raise e'
        /\ e = match e' with
               | StopIteration => RuntimeError
               | _ => Builtin e'
               end).
Proof.
  revert p pos line_num.
  induction rest as [|[line|r] rest IH]; intros p pos line_num H.
  - cbn [reader_loop fst] in H. unfold end_of_input in H.
    destruct (negb _ || _).
    + destruct (d_strict d) eqn:Es; [|discriminate].
      injection H as <-. right. left. eexists. split; [reflexivity|].
      right. right. auto.
    + injection H as <-. auto.
  - cbn [reader_loop] in H.
    destruct (process line) as [line'|e0] eqn:Ep.
    + destruct (parse_line d limit p line') as [p'|e1] eqn:E.
      * destruct (ParserState_eqb (p_state p') START_RECORD);
          [discriminate H|].
        destruct (IH _ _ _ H)
          as [H1|[H1|[(r & Hin & He)|(l & e' & Hin & Hl & He)]]]; auto.
        -- right. right. left. exists r. split; [right; exact Hin | exact He].
        -- right. right. right. exists l, e'.
           split; [right; exact Hin | auto].
      * cbn [fst] in H. injection H as <-. right. left.
        eexists. split; [reflexivity|].
        exact (parse_line_errors _ _ _ _ E).
    + right. right. right. exists line, e0.
      split; [left; reflexivity|]. split; [exact Ep|].
      destruct e0; cbn [fst] in H; injection H as <-; reflexivity.
  - cbn [reader_loop fst] in H. injection H as <-.
    right. right. left. exists r. split; [left; reflexivity | reflexivity].
Qed.

Lemma line_of_row_converts (B : Builtins) (self : ReaderObject)
    (row : list str) (e : raised) :
  line_of_row B self row = Throw e -> convert_values self = true.
Proof.
  unfold line_of_row. destruct (convert_values self); [reflexivity|].
  discriminate.
Qed.

(** [__next__] on an open reader: where each exception comes from. *)
Lemma next_open_throws (fs : str -> option (list read)) (limit : nat)
    (process : Reader -> str -> outcome str) (B : Builtins)
    (self : ReaderObject) (f : TextFile) (r : CsvReader) (e : raised) :
  file (core self) = Some f -> reader (core self) = Some r ->
  fst (__next__ fs limit process B self) = Throw e ->
  e = Builtin StopIteration
  \/ (exists e', e = Builtin e' /\ reader_error (d_strict (r_dialect r)) e')
  \/ (exists re,
        In (Failed re) (skipn (f_pos f) (f_lines f))
        /\ e = Builtin (read_exn re))
  \/ (exists line e',
        In (Line line) (skipn (f_pos f) (f_lines f))
        /\ process (core self) line = Raise e'
        /\ e = match e' with
               | StopIteration => RuntimeError
               | _ => Builtin e'
               end)
  \/ (convert_values self = true /\ (e = ValueError \/ e = Builtin TypeError))
  \/ (rows_read self = None /\ e = Builtin TypeError).
Proof.
  intros Hf Hr. rewrite (@next_open fs limit process B self f r Hf Hr).
  cbv zeta. set (loop := reader_loop _ _ _ _ _ _ _).
  destruct (fst loop) as [row|e0] eqn:Eloop; cbn [rbind].
  - destruct (line_of_row B self row) as [line|e1] eqn:El.
    + unfold rows_read. destruct (_rows_read (core self)); [discriminate|].
      cbn [fst]. intros H. injection H as <-. auto 7.
    + cbn [fst]. intros H. injection H as <-.
      right. right. right. right. left.
      split; [exact (@line_of_row_converts B self row _ El)|].
      exact (@line_of_row_throws B self row _ El).
  - cbn [fst]. intros H. injection H as <-. subst loop.
    destruct (@reader_loop_throws _ _ _ _ _ _ _ _ Eloop)
      as [H1|[H1|[(re & Hin & He)|(l & e' & Hin & Hl & He)]]]; auto.
    + right. right. left. exists re. split; [|exact He].
      destruct (r_alive r); [exact Hin | destruct Hin].
    + right. right. right. left. exists l, e'. split; [|auto].
      destruct (r_alive r); [exact Hin | destruct Hin].
Qed.



(** X20: a [RuntimeError] never comes out of [__next__], of the base
    class or of [NoMultilineQuotedReader], whether the reader is open or
    not: neither [_process] raises the [StopIteration] that the generator
    would turn into one. *)
Theorem next_never_runtime_error (fs : str -> option (list read))
    (limit limit' : nat) (B : Builtins) (self : ReaderObject) :
  fst (__next__ fs limit Reader_hook B self) <> Throw RuntimeError
  /\ fst (__next__ fs limit (NoMultilineQuotedReader_hook limit') B self)
     <> Throw RuntimeError.
Proof.
  assert (Hgen : forall process : Reader -> str -> outcome str,
             (forall c line, process c line <> Raise StopIteration) ->
             fst (__next__ fs limit process B self) <> Throw RuntimeError).
  { intros process Hp.
    destruct (file (core self)) as [f|] eqn:Hf.
    - destruct (reader (core self)) as [r|] eqn:Hr.
      + intros H.
        destruct (@next_open_throws fs limit process B self f r _ Hf Hr H)
          as [H1|[(e' & H1 & _)|[(re & _ & H1)|[(l & e' & _ & Hl & He)
              |[(_ & [H1|H1])|(_ & H1)]]]]];
          try discriminate H1.
        destruct e'; try discriminate He. exact (Hp _ _ Hl).
      + rewrite (@next_without_reader fs limit process B self f Hf Hr).
        discriminate.
    - unfold __next__, open_if_closed. rewrite Hf.
      set (o := _open fs (core self)).
      destruct (fst o) as [u|e0] eqn:Eo; cbn [lift];
        [|cbn [fst]; discriminate].
      set (s1 := set_core (snd o) self).
      destruct (reader (core s1)) as [r|] eqn:Hr; [|discriminate].
      destruct (file (core s1)) as [f|] eqn:Hf1; [|discriminate].
      intros H.
      assert (Hn : fst (__next__ fs limit process B s1) = Throw RuntimeError).
      { unfold __next__, open_if_closed. rewrite Hf1. cbv beta iota zeta.
        rewrite Hr, Hf1. exact H. }
      destruct (@next_open_throws fs limit process B s1 f r _ Hf1 Hr Hn)
        as [H1|[(e' & H1 & _)|[(re & _ & H1)|[(l & e' & _ & Hl & He)
            |[(_ & [H1|H1])|(_ & H1)]]]]];
        try discriminate H1.
      destruct e'; try discriminate He. exact (Hp _ _ Hl). }
  split; apply Hgen.
  - intros c line. unfold Reader_hook. discriminate.
  - intros c line. unfold NoMultilineQuotedReader_hook.
    apply filter_does_not_stop.
Qed.
